(** * Job synchronisation and merge engine of the workshop manager

    A shallow embedding of the two sync services of the repository
    (the Firestore service, [src/unnamed/part_003], and the Google Sheets
    service, [src/unnamed/part_004]) together with the [Job] data model of
    [src/types.ts], and the properties of the merge engine, the row codec,
    the image normaliser and the two orchestrators.

    Conventions of the embedding.
    - A JavaScript [number] that holds a time stamp is an integer or [NaN]
      (type [jsnum]); the finite values are unbounded integers.
    - An optional property of an object is [Missing] (no own property),
      [Undefined] (own property holding [undefined]) or [Value v]; object
      spread copies own properties only, so the difference is observable.
    - A JavaScript [Map] is an association list in insertion order.
    - Exceptions are the [Throw] case of [result]; awaited calls to the
      outside world are nodes of the program tree [prog].
    - What the browser and the remote services compute (the clock, [Date],
      [JSON.parse] of a cell, image decoding and encoding) is a record
      [Host] of functions; [refHost] is one concrete instance. *)

From Stdlib Require Import ZArith String Ascii List Sorting.Sorted Permutation.
From stdpp Require Import base tactics option list gmap strings sets.

Set Warnings "-clear-no-such-hyp,-register-all".

Local Open Scope string_scope.
Local Open Scope Z_scope.
Local Open Scope list_scope.

(** ** JavaScript values *)

(** A time value: [new Date(x).getTime()] and [job.createdAt]. *)
Inductive jsnum : Type :=
| Num (z : Z)
| NaN.

(** [b - a] on numbers. *)
Definition jsnum_sub (b a : jsnum) : jsnum :=
  match b, a with
  | Num y, Num x => Num (y - x)
  | _, _ => NaN
  end.

(** [a >= b] on numbers: false as soon as one side is [NaN]. *)
Definition jsnum_geb (a b : jsnum) : bool :=
  match a, b with
  | Num x, Num y => y <=? x
  | _, _ => false
  end.

Definition is_num (a : jsnum) : Prop :=
  match a with Num _ => True | NaN => False end.

(** An optional property [p?: A] of an object. *)
Inductive field (A : Type) : Type :=
| Missing
| Undefined
| Value (a : A).
Arguments Missing {A}.
Arguments Undefined {A}.
Arguments Value {A} a.

(** Reading [o.p]: [undefined] (here [None]) unless the property holds a value. *)
Definition read {A} (f : field A) : option A :=
  match f with
  | Value a => Some a
  | _ => None
  end.

(** Writing [p: e] in an object literal: the property exists, whatever [e] is. *)
Definition written {A} (v : option A) : field A :=
  match v with
  | Some a => Value a
  | None => Undefined
  end.

(** Truthiness of a string-or-undefined value, as [||], [?:] and [if] test it. *)
Definition truthy (v : option string) : bool :=
  match v with
  | Some s => negb (String.eqb s "")
  | None => false
  end.

(** [x || d] where [x] is a string or [undefined] and [d] a string. *)
Definition or_else (x : option string) (d : string) : string :=
  if truthy x then default d x else d.

(** [x || y] where both sides are a string or [undefined]. *)
Definition or_undef (x y : option string) : option string :=
  if truthy x then x else y.

(** ** The data model ([src/types.ts]) *)

Module JobStatus.
Definition INTAKE : string := "Ingreso".
Definition ASSESSING : string := "Valoración".
Definition IN_PROGRESS : string := "En Proceso".
Definition COMPLETED : string := "Terminado".
Definition all : list string := [INTAKE; ASSESSING; IN_PROGRESS; COMPLETED].
End JobStatus.

Definition repairTypes : list string := ["CHAPA"; "PINTURA"; "AMBOS"].

Record CarDetails : Type := mkCar {
  plate : string;
  make : string;
  model : string;
  year : option string;
  color : option string
}.

(** [status] and [repairType] are strings at run time: the casts of
    [rowToJob] do not check them.  [well_typed] says what the TypeScript
    types add. *)
Record Job : Type := mkJob {
  id : string;
  createdAt : jsnum;
  status : string;
  carDetails : field CarDetails;
  intakeImage : field string;
  damageImages : field (list string);
  identifiedParts : list string;
  manualNotes : string;
  repairType : string
}.

Definition well_typed (j : Job) : Prop :=
  status j ∈ JobStatus.all ∧ repairType j ∈ repairTypes.

(** ** The merge engine *)

(** *** [Map<string, Job>] in insertion order *)

Definition jobMap : Type := list (string * Job).

(** [m.get(k)] *)
Fixpoint map_get (k : string) (m : jobMap) : option Job :=
  match m with
  | [] => None
  | (k', v) :: m' => if decide (k = k') then Some v else map_get k m'
  end.

(** [m.set(k, v)]: an existing key keeps its place, a new key goes last. *)
Fixpoint map_set (k : string) (v : Job) (m : jobMap) : jobMap :=
  match m with
  | [] => [(k, v)]
  | (k', v') :: m' =>
      if decide (k = k') then (k, v) :: m' else (k', v') :: map_set k v m'
  end.

(** [Array.from(m.values())] *)
Definition map_values (m : jobMap) : list Job := m.*2.

Definition map_keys (m : jobMap) : list string := m.*1.

(** *** The combination of a remote and a local job

    [{ ...rJob, ...lJob,
       intakeImage: lJob.intakeImage || rJob.intakeImage,
       damageImages: (lJob.damageImages && lJob.damageImages.length > 0)
                       ? lJob.damageImages : rJob.damageImages }]
    The same expression in both services (part_003:129-135, part_004:171-179). *)

(** [{...r, ...l}.p] for an optional property [p]. *)
Definition spread2 {A} (r l : field A) : field A :=
  match l with
  | Missing => r
  | _ => l
  end.

(** [(a && a.length > 0)] *)
Definition nonempty_images (a : option (list string)) : bool :=
  match a with
  | Some (_ :: _) => true
  | _ => false
  end.

Definition overlay (rJob lJob : Job) : Job :=
  {| id := id lJob;
     createdAt := createdAt lJob;
     status := status lJob;
     carDetails := spread2 (carDetails rJob) (carDetails lJob);
     intakeImage :=
       written (or_undef (read (intakeImage lJob)) (read (intakeImage rJob)));
     damageImages :=
       written (if nonempty_images (read (damageImages lJob))
                then read (damageImages lJob)
                else read (damageImages rJob));
     identifiedParts := identifiedParts lJob;
     manualNotes := manualNotes lJob;
     repairType := repairType lJob |}.

(** *** [Array.prototype.sort((a, b) => b.createdAt - a.createdAt)]

    The sort is stable and puts [a] after [b] when the comparator is
    positive; a [NaN] comparator counts as [0].  For a consistent comparator
    every stable sort returns the same array, so the model is the simplest
    one, an insertion sort.  With [NaN] among the time stamps the comparator
    is not consistent and ECMAScript leaves the order to the engine: the
    order of the model is the order of the code only when every [createdAt]
    is a number, and the statements about the order assume that. *)

Definition comparator (a b : Job) : jsnum := jsnum_sub (createdAt b) (createdAt a).

Definition positive_cmp (v : jsnum) : bool :=
  match v with
  | Num z => 0 <? z
  | NaN => false
  end.

Fixpoint sort_insert (a : Job) (l : list Job) : list Job :=
  match l with
  | [] => [a]
  | b :: l' =>
      if positive_cmp (comparator a b) then b :: sort_insert a l' else a :: b :: l'
  end.

Definition sortByCreatedAtDesc (l : list Job) : list Job :=
  foldr sort_insert [] l.

(** *** The merge step of [syncWithFirebase] (part_003:111-142) *)

Definition seedFirebase (remoteJobs : list Job) : jobMap :=
  foldl (λ m rJob, map_set (id rJob) rJob m) [] remoteJobs.

Definition overlayLocal (m : jobMap) (lJob : Job) : jobMap :=
  match map_get (id lJob) m with
  | Some rJob => map_set (id lJob) (overlay rJob lJob) m
  | None => map_set (id lJob) lJob m
  end.

Definition mergeFirebase (localJobs remoteJobs : list Job) : list Job :=
  sortByCreatedAtDesc
    (map_values (foldl overlayLocal (seedFirebase remoteJobs) localJobs)).

(** *** The merge step of [syncWithGoogleSheets] (part_004:153-187)

    Same as above behind the guards [if (job.id)] and [if (localJob.id)]. *)

Definition has_id (j : Job) : bool := truthy (Some (id j)).

Definition seedSheets (sheetJobs : list Job) : jobMap :=
  foldl (λ m job, if has_id job then map_set (id job) job m else m) [] sheetJobs.

Definition overlayLocalSheets (m : jobMap) (localJob : Job) : jobMap :=
  if has_id localJob then
    match map_get (id localJob) m with
    | Some sheetJob => map_set (id localJob) (overlay sheetJob localJob) m
    | None => map_set (id localJob) localJob m
    end
  else m.

Definition mergeSheets (localJobs sheetJobs : list Job) : list Job :=
  sortByCreatedAtDesc
    (map_values (foldl overlayLocalSheets (seedSheets sheetJobs) localJobs)).

(** ** Exceptions *)

Inductive error : Type :=
| Error (message : string)      (* [throw new Error(message)] *)
| RangeError                    (* invalid time value in [toISOString] *)
| SyntaxError                   (* [JSON.parse] *)
| Rejected (reason : string).   (* a rejected promise of the outside world *)

Inductive result (A : Type) : Type :=
| Ok (a : A)
| Throw (e : error).
Arguments Ok {A} a.
Arguments Throw {A} e.

(** ** Strings: [Array.prototype.join] and [String.prototype.split] *)

Fixpoint join (sep : string) (l : list string) : string :=
  match l with
  | [] => ""
  | x :: l' =>
      match l' with
      | [] => x
      | _ :: _ => x +:+ sep +:+ join sep l'
      end
  end.

(** [split_from sep skip acc s]: [acc] is the piece read so far, [skip] the
    number of separator characters still to pass over. *)
Fixpoint split_from (sep : string) (skip : nat) (acc s : string) : list string :=
  match s with
  | EmptyString => [acc]
  | String c s' =>
      match skip with
      | S n => split_from sep n acc s'
      | O =>
          if String.prefix sep s
          then acc :: split_from sep (String.length sep - 1) "" s'
          else split_from sep 0 (acc +:+ String c "") s'
      end
  end.

(** [s.split(sep)] for a non-empty separator. *)
Definition split (sep s : string) : list string := split_from sep 0 "" s.

(** ** The host: clock, [Date], [JSON.parse], canvas *)

(** What [JSON.parse] of an image cell yields, as far as [rowToJob] looks:
    an array (whose elements the code takes for strings without a check)
    or some other value. *)
Inductive parsed : Type :=
| PArray (elems : list string)
| POther.

Record Image : Type := mkImage { width : Z; height : Z }.

Record Host : Type := mkHost {
  (** [new Date()] / [Date.now()]: the clock reading of the call *)
  now : Z;
  (** [new Date(t).toISOString()] for a valid time value [t] *)
  toISOString : Z → string;
  (** [new Date(s).getTime()]: [NaN] when [s] does not parse *)
  Date_parse : string → jsnum;
  (** [JSON.parse(s)] *)
  JSON_parse : string → result parsed;
  (** loading [data:image/jpeg;base64,<s>] into an [Image]: [None] is [onerror] *)
  loadImage : string → option Image;
  (** whether [canvas.getContext('2d')] of a canvas of that size is non-null *)
  getContext2d : Z → Z → bool;
  (** [canvas.toDataURL('image/jpeg', quality).split(',')[1]] after the
      source was drawn on a white canvas of the given size; the quality is
      in hundredths *)
  toDataURL_payload : string → Z → Z → Z → string
}.

(** The time values a [Date] can hold. *)
Definition valid_time (t : jsnum) : bool :=
  match t with
  | Num z => Z.abs z <=? 8640000000000000
  | NaN => false
  end.

(** ** The row codec ([src/unnamed/part_004]) *)

Definition cell : Type := option string.
Definition row : Type := list cell.

(** [row[i]] *)
Definition at_ (r : row) (i : nat) : cell := mjoin (r !! i).

(** [jobToRow] (part_004:6-23).  [toISOString] throws on an invalid date. *)
Definition jobToRow (h : Host) (job : Job) : result row :=
  match createdAt job with
  | Num t =>
      if valid_time (Num t) then
        Ok [ Some (id job);
             Some (toISOString h t);
             Some (status job);
             Some (or_else (plate <$> read (carDetails job)) "");
             Some (or_else (make <$> read (carDetails job)) "");
             Some (or_else (model <$> read (carDetails job)) "");
             Some (repairType job);
             Some (join ", " (identifiedParts job));
             Some (or_else (Some (manualNotes job)) "");
             Some "[]";
             Some "[]" ]
      else Throw RangeError
  | NaN => Throw RangeError
  end.

(** The [try { ... } catch (e) { }] of [rowToJob] (part_004:41-52): the two
    locals as they stand when the block is left, normally or by a throw. *)
Definition parseImageCells (h : Host) (intakeJson damageJson : string)
  : option string * list string :=
  let intakeImage := None in
  let damageImages := [] in
  match JSON_parse h intakeJson with
  | Throw _ => (intakeImage, damageImages)
  | Ok parsedIntake =>
      let intakeImage :=
        match parsedIntake with
        | PArray (x :: _) => Some x
        | _ => intakeImage
        end in
      match JSON_parse h damageJson with
      | Throw _ => (intakeImage, damageImages)
      | Ok parsedDamage =>
          (intakeImage,
           match parsedDamage with
           | PArray l => l
           | POther => damageImages
           end)
      end
  end.

(** [rowToJob] (part_004:26-69).  The only call that can throw is
    [JSON.parse], inside the [try]; the function itself always returns. *)
Definition rowToJob (h : Host) (r : row) : Job :=
  let id := or_else (at_ r 0) "" in
  let dateStr := or_else (at_ r 1) (toISOString h (now h)) in
  let status := or_else (at_ r 2) JobStatus.INTAKE in
  let plate := or_else (at_ r 3) "" in
  let make := or_else (at_ r 4) "" in
  let model := or_else (at_ r 5) "" in
  let repairType := or_else (at_ r 6) "AMBOS" in
  let partsStr := or_else (at_ r 7) "" in
  let notes := or_else (at_ r 8) "" in
  let intakeJson := or_else (at_ r 9) "[]" in
  let damageJson := or_else (at_ r 10) "[]" in
  let '(intakeImage, damageImages) := parseImageCells h intakeJson damageJson in
  {| id := id;
     createdAt := Date_parse h dateStr;
     status := status;
     carDetails :=
       Value {| plate := plate; make := make; model := model;
                year := None; color := None |};
     repairType := repairType;
     identifiedParts := if truthy (Some partsStr) then split ", " partsStr else [];
     manualNotes := notes;
     intakeImage := written intakeImage;
     damageImages := Value damageImages |}.

(** ** The image normaliser ([compressImage], part_003:25-61) *)

(** [Math.round(p / q)] for integers [p] and [q > 0]: the nearest integer,
    halves upwards. *)
Definition Math_round_div (p q : Z) : Z := (2 * p + q) / (2 * q).

(** The size given to the canvas (part_003:31-41). *)
Definition canvasSize (img : Image) (maxWidth : Z) : Z * Z :=
  if maxWidth <? width img
  then (maxWidth, Math_round_div (height img * maxWidth) (width img))
  else (width img, height img).

Definition compressImage (h : Host) (base64 : string) (maxWidth quality : Z) : string :=
  match loadImage h base64 with
  | None => base64
  | Some img =>
      let '(w, ht) := canvasSize img maxWidth in
      if getContext2d h w ht
      then toDataURL_payload h base64 w ht quality
      else base64
  end.

(** The default arguments: [maxWidth = 800], [quality = 0.6]. *)
Definition compressImage_default (h : Host) (base64 : string) : string :=
  compressImage h base64 800 60.

(** ** Settings ([src/types.ts]) *)

Record FirebaseConfig : Type := mkFirebaseConfig {
  apiKey : string;
  authDomain : string;
  projectId : string;
  storageBucket : option string;
  messagingSenderId : option string;
  appId : string
}.

Record AppSettings : Type := mkSettings {
  firebaseConfig : option FirebaseConfig;
  googleSheetId : option string;
  googleAccessToken : option string
}.

(** ** Preparing a job for the document store (part_003:64-90, 159-163) *)

(** [prepareJobForCloud]: a copy of the job whose images went through
    [compressImage].  [compressImage] never rejects, so the two [catch]
    blocks are never entered. *)
Definition prepareJobForCloud (h : Host) (job : Job) : Job :=
  let jobToSave := job in
  let jobToSave :=
    match read (intakeImage jobToSave) with
    | Some img =>
        if truthy (Some img)
        then {| id := id jobToSave; createdAt := createdAt jobToSave;
                status := status jobToSave; carDetails := carDetails jobToSave;
                intakeImage := Value (compressImage_default h img);
                damageImages := damageImages jobToSave;
                identifiedParts := identifiedParts jobToSave;
                manualNotes := manualNotes jobToSave;
                repairType := repairType jobToSave |}
        else jobToSave
    | None => jobToSave
    end in
  if nonempty_images (read (damageImages jobToSave))
  then {| id := id jobToSave; createdAt := createdAt jobToSave;
          status := status jobToSave; carDetails := carDetails jobToSave;
          intakeImage := intakeImage jobToSave;
          damageImages :=
            Value (compressImage_default h <$> default [] (read (damageImages jobToSave)));
          identifiedParts := identifiedParts jobToSave;
          manualNotes := manualNotes jobToSave;
          repairType := repairType jobToSave |}
  else jobToSave.

(** JSON documents; the keys of an object are unordered. *)
Inductive jv : Type :=
| JNull
| JNumber (z : Z)
| JString (s : string)
| JArray (l : list jv)
| JObject (m : gmap string jv).

(** A property that [JSON.stringify] keeps: [undefined] ones are left out. *)
Definition kept (key : string) (v : option jv) : list (string * jv) :=
  match v with
  | Some x => [(key, x)]
  | None => []
  end.

Definition carToJSON (c : CarDetails) : jv :=
  JObject (list_to_map
    ([("plate", JString (plate c)); ("make", JString (make c)); ("model", JString (model c))]
     ++ kept "year" (JString <$> year c)
     ++ kept "color" (JString <$> color c))).

(** [JSON.parse(JSON.stringify(job))]: no [undefined] property is left and a
    [NaN] number has become [null]. *)
Definition cleanData (job : Job) : jv :=
  JObject (list_to_map
    ([("id", JString (id job));
      ("createdAt", match createdAt job with Num z => JNumber z | NaN => JNull end);
      ("status", JString (status job))]
     ++ kept "carDetails" (carToJSON <$> read (carDetails job))
     ++ kept "intakeImage" (JString <$> read (intakeImage job))
     ++ kept "damageImages" ((λ l, JArray (JString <$> l)) <$> read (damageImages job))
     ++ [("identifiedParts", JArray (JString <$> identifiedParts job));
         ("manualNotes", JString (manualNotes job));
         ("repairType", JString (repairType job))])).

(** ** Programs that talk to the remote stores *)

Record request : Type := mkRequest {
  method : string;
  url : string;
  jsonContentType : bool;           (* the [Content-Type: application/json] header *)
  body : option (gmap string jv)    (* the object given to [JSON.stringify] *)
}.

(** What [await response.json()] gives, as far as the code looks. *)
Record resData : Type := mkResData {
  sheets : option (list string);    (* [sheets[i].properties.title] *)
  values : option (list row);
  error_message : option string     (* [error?.message] *)
}.

Record response : Type := mkResponse {
  ok : bool;
  status_code : Z;
  json : result resData
}.

(** One write of the batch: [batch.set(doc(db, 'jobs', id), data, {merge: true})]. *)
Definition batchOp : Type := string * jv.

(** A program is a tree: it returns, throws, or awaits one call to the
    outside and goes on with the outcome. *)
Inductive prog (A : Type) : Type :=
| Ret (a : A)
| Fail (e : error)
| GetDocs (config : FirebaseConfig) (k : result (list Job) → prog A)
| BatchCommit (config : FirebaseConfig) (ops : list batchOp) (k : result unit → prog A)
| Fetch (req : request) (k : result response → prog A).
Arguments Ret {A} a.
Arguments Fail {A} e.
Arguments GetDocs {A} config k.
Arguments BatchCommit {A} config ops k.
Arguments Fetch {A} req k.

Fixpoint prog_bind {A B} (f : A → prog B) (p : prog A) : prog B :=
  match p with
  | Ret a => f a
  | Fail e => Fail e
  | GetDocs c k => GetDocs c (λ r, prog_bind f (k r))
  | BatchCommit c ops k => BatchCommit c ops (λ r, prog_bind f (k r))
  | Fetch req k => Fetch req (λ r, prog_bind f (k r))
  end.

#[global] Instance prog_mret : MRet prog := @Ret.
#[global] Instance prog_mbind : MBind prog := @prog_bind.

(** [try { p } catch (e) { handler }] *)
Fixpoint try_catch {A} (p : prog A) (handler : error → prog A) : prog A :=
  match p with
  | Ret a => Ret a
  | Fail e => handler e
  | GetDocs c k => GetDocs c (λ r, try_catch (k r) handler)
  | BatchCommit c ops k => BatchCommit c ops (λ r, try_catch (k r) handler)
  | Fetch req k => Fetch req (λ r, try_catch (k r) handler)
  end.

(** An awaited promise: its value, or its rejection thrown. *)
Definition settle {A} (r : result A) : prog A :=
  match r with
  | Ok a => Ret a
  | Throw e => Fail e
  end.

Definition getDocs (config : FirebaseConfig) : prog (list Job) := GetDocs config settle.
Definition commit (config : FirebaseConfig) (ops : list batchOp) : prog unit :=
  BatchCommit config ops settle.
Definition fetch (req : request) : prog response := Fetch req settle.

(** [l.map(f)] where [f] may throw. *)
Fixpoint map_result {A B} (f : A → result B) (l : list A) : result (list B) :=
  match l with
  | [] => Ok []
  | a :: l' =>
      match f a with
      | Throw e => Throw e
      | Ok b =>
          match map_result f l' with
          | Throw e => Throw e
          | Ok bs => Ok (b :: bs)
          end
      end
  end.

(** ** The document-store orchestrator ([syncWithFirebase], part_003:94-174) *)

(** The body of the [for (const job of jobsToSave)] loop: one more write in
    the batch, one more operation counted. *)
Definition saveStep (h : Host) (st : list batchOp * Z) (job : Job) : list batchOp * Z :=
  let '(batch, opCount) := st in
  let dataToSave := prepareJobForCloud h job in
  (batch ++ [(id job, cleanData dataToSave)], opCount + 1).

(** [getDb], [collection], [doc], [writeBatch] and [batch.set] build handles
    and fill the batch on the client; the two awaited calls to the store
    are [getDocs] and [batch.commit]. *)
Definition syncWithFirebase (h : Host) (localJobs : list Job) (settings : AppSettings)
  : prog (list Job) :=
  match firebaseConfig settings with
  | None => Fail (Error "Configuración de Firebase incompleta.")
  | Some config =>
      if negb (truthy (Some (apiKey config)))
      then Fail (Error "Configuración de Firebase incompleta.")
      else
        remoteJobs ← getDocs config;
        let mergedJobs := mergeFirebase localJobs remoteJobs in
        let jobsToSave := take 450 mergedJobs in
        let '(batch, opCount) := foldl (saveStep h) ([], 0) jobsToSave in
        (if 0 <? opCount then commit config batch else Ret ());;
        Ret mergedJobs
  end.

(** ** The spreadsheet orchestrator (part_004:71-217) *)

Definition SHEET_NAME : string := "TallerProData".

(** A value of the settings inside a template literal. *)
Definition interpolate (v : option string) : string := default "undefined" v.

Definition sheetHeaders : list string :=
  ["ID"; "Fecha"; "Estado"; "Matrícula"; "Marca"; "Modelo"; "Tipo Reparación";
   "Piezas"; "Observaciones"; "Imagen Ingreso (JSON)"; "Imágenes Daños (JSON)"].

Definition rowToJSON (r : row) : jv :=
  JArray ((λ c : cell, match c with Some s => JString s | None => JNull end) <$> r).

Definition valuesBody (range : string) (rows : list row) : gmap string jv :=
  list_to_map [("range", JString range); ("majorDimension", JString "ROWS");
               ("values", JArray (rowToJSON <$> rows))].

Definition addSheetBody : gmap string jv :=
  {[ "requests" :=
       JArray [JObject {[ "addSheet" :=
         JObject {[ "properties" := JObject {[ "title" := JString SHEET_NAME ]} ]} ]}] ]}.

Definition ensureSheetExists (settings : AppSettings) : prog unit :=
  let BASE_URL :=
    "https://sheets.googleapis.com/v4/spreadsheets/" +:+ interpolate (googleSheetId settings) in
  let token := interpolate (googleAccessToken settings) in
  metaRes ← fetch (mkRequest "GET"
    (BASE_URL +:+ "?fields=sheets.properties.title&access_token=" +:+ token) false None);
  if negb (ok metaRes) then
    if bool_decide (status_code metaRes = 401) || bool_decide (status_code metaRes = 403)
    then Fail (Error "Permiso denegado. Revisa el Access Token.")
    else if bool_decide (status_code metaRes = 404)
    then Fail (Error "Hoja de cálculo no encontrada. Revisa el ID.")
    else Fail (Error "Error conectando con Google Sheets.")
  else
    metaData ← settle (json metaRes);
    let sheetExists :=
      match sheets metaData with
      | Some titles => existsb (λ title, bool_decide (title = SHEET_NAME)) titles
      | None => false
      end in
    if sheetExists then Ret ()
    else
      createRes ← fetch (mkRequest "POST"
        (BASE_URL +:+ ":batchUpdate?access_token=" +:+ token) true (Some addSheetBody));
      if negb (ok createRes)
      then Fail (Error "No se pudo crear la pestaña 'TallerProData'.")
      else
        fetch (mkRequest "POST"
          (BASE_URL +:+ "/values/" +:+ SHEET_NAME
             +:+ "!A1:append?valueInputOption=USER_ENTERED&access_token=" +:+ token)
          true
          (Some (valuesBody (SHEET_NAME +:+ "!A1") [Some <$> sheetHeaders])));;
        Ret ().

Definition syncWithGoogleSheets (h : Host) (localJobs : list Job) (settings : AppSettings)
  : prog (list Job) :=
  if negb (truthy (googleSheetId settings)) || negb (truthy (googleAccessToken settings))
  then Fail (Error "Configuración incompleta")
  else
    let BASE_URL :=
      "https://sheets.googleapis.com/v4/spreadsheets/" +:+ interpolate (googleSheetId settings) in
    let token := interpolate (googleAccessToken settings) in
    ensureSheetExists settings;;
    sheetJobs ← try_catch
      (response ← fetch (mkRequest "GET"
         (BASE_URL +:+ "/values/" +:+ SHEET_NAME +:+ "!A2:K?access_token=" +:+ token)
         false None);
       if ok response then
         data ← settle (json response);
         match values data with
         | Some rows => Ret (rowToJob h <$> rows)
         | None => Ret []
         end
       else Ret [])
      (λ _, Ret []);
    let mergedJobs := mergeSheets localJobs sheetJobs in
    fetch (mkRequest "POST"
      (BASE_URL +:+ "/values/" +:+ SHEET_NAME +:+ "!A2:K1000:clear?access_token=" +:+ token)
      false
      (Some {[ "range" := JString (SHEET_NAME +:+ "!A2:K1000") ]}));;
    rows ← settle (map_result (jobToRow h) mergedJobs);
    writeResponse ← fetch (mkRequest "POST"
      (BASE_URL +:+ "/values/" +:+ SHEET_NAME
         +:+ "!A2:append?valueInputOption=USER_ENTERED&access_token=" +:+ token)
      true
      (Some (valuesBody (SHEET_NAME +:+ "!A2") rows)));
    if negb (ok writeResponse) then
      err ← settle (json writeResponse);
      Fail (Error ("Error escribiendo en Sheet: "
                   +:+ or_else (error_message err) "Unknown error"))
    else Ret mergedJobs.

(** ** Running a program against a backend *)

(** The calls a run made, in order. *)
Inductive event : Type :=
| EvGetDocs (config : FirebaseConfig)
| EvCommit (config : FirebaseConfig) (ops : list batchOp)
| EvFetch (req : request).

(** A backend with state [W] answers each call and moves on. *)
Record Backend (W : Type) : Type := mkBackend {
  onGetDocs : FirebaseConfig → W → result (list Job) * W;
  onCommit : FirebaseConfig → list batchOp → W → result unit * W;
  onFetch : request → W → result response * W
}.
Arguments onGetDocs {W} _ _ _.
Arguments onCommit {W} _ _ _ _.
Arguments onFetch {W} _ _ _.

Record outcome (W A : Type) : Type := mkOutcome {
  returned : result A;
  trace : list event;
  world : W
}.
Arguments mkOutcome {W A} _ _ _.
Arguments returned {W A} _.
Arguments trace {W A} _.
Arguments world {W A} _.

Fixpoint run {W A} (b : Backend W) (p : prog A) (w : W) : outcome W A :=
  match p with
  | Ret a => mkOutcome (Ok a) [] w
  | Fail e => mkOutcome (Throw e) [] w
  | GetDocs c k =>
      let '(r, w') := onGetDocs b c w in
      let o := run b (k r) w' in
      mkOutcome (returned o) (EvGetDocs c :: trace o) (world o)
  | BatchCommit c ops k =>
      let '(r, w') := onCommit b c ops w in
      let o := run b (k r) w' in
      mkOutcome (returned o) (EvCommit c ops :: trace o) (world o)
  | Fetch req k =>
      let '(r, w') := onFetch b req w in
      let o := run b (k r) w' in
      mkOutcome (returned o) (EvFetch req :: trace o) (world o)
  end.

(** ** The write phase on the object graph

    [syncWithFirebase] returns the very array [mergedJobs] whose elements it
    handed to [prepareJobForCloud] one by one.  To see what the write phase
    can change, jobs and image arrays are objects in a store here, and the
    statements of part_003:64-90 and 153-167 are allocations, reads and
    property assignments. *)

Module Store.

Definition loc : Type := positive.

(** A job object: [damageImages] holds a reference to an array. *)
Record JobObj : Type := mkObj {
  o_id : string;
  o_createdAt : jsnum;
  o_status : string;
  o_carDetails : field CarDetails;
  o_intakeImage : field string;
  o_damageImages : field loc;
  o_identifiedParts : list string;
  o_manualNotes : string;
  o_repairType : string
}.

Record heap : Type := mkHeap {
  objs : gmap loc JobObj;
  arrs : gmap loc (list string)
}.

(** [o.intakeImage = v] and [o.damageImages = a] on the record. *)
Definition with_intakeImage (o : JobObj) (v : field string) : JobObj :=
  mkObj (o_id o) (o_createdAt o) (o_status o) (o_carDetails o) v (o_damageImages o)
        (o_identifiedParts o) (o_manualNotes o) (o_repairType o).

Definition with_damageImages (o : JobObj) (a : field loc) : JobObj :=
  mkObj (o_id o) (o_createdAt o) (o_status o) (o_carDetails o) (o_intakeImage o) a
        (o_identifiedParts o) (o_manualNotes o) (o_repairType o).

(** The array behind a [damageImages] property. *)
Definition deref (h : heap) (a : field loc) : option (field (list string)) :=
  match a with
  | Missing => Some Missing
  | Undefined => Some Undefined
  | Value l => Value <$> arrs h !! l
  end.

(** The job a reference stands for. *)
Definition view (h : heap) (r : loc) : option Job :=
  o ← objs h !! r;
  imgs ← deref h (o_damageImages o);
  Some {| id := o_id o; createdAt := o_createdAt o; status := o_status o;
          carDetails := o_carDetails o; intakeImage := o_intakeImage o;
          damageImages := imgs; identifiedParts := o_identifiedParts o;
          manualNotes := o_manualNotes o; repairType := o_repairType o |}.

(** Computations on the store; [None] is a dangling reference. *)
Definition heapM (A : Type) : Type := heap → option (A * heap).

#[global] Instance heapM_ret : MRet heapM := λ A a h, Some (a, h).
#[global] Instance heapM_bind : MBind heapM :=
  λ A B f m h, match m h with Some (a, h') => f a h' | None => None end.

(** [{ ...o }] and [arr.map(f)] make a new object. *)
Definition alloc_obj (o : JobObj) : heapM loc := λ h,
  let l := fresh (dom (objs h)) in
  Some (l, mkHeap (<[l := o]> (objs h)) (arrs h)).

Definition alloc_arr (a : list string) : heapM loc := λ h,
  let l := fresh (dom (arrs h)) in
  Some (l, mkHeap (objs h) (<[l := a]> (arrs h))).

Definition get_obj (r : loc) : heapM JobObj := λ h,
  o ← objs h !! r; Some (o, h).

Definition get_arr (a : loc) : heapM (list string) := λ h,
  l ← arrs h !! a; Some (l, h).

(** [r.p = v]: the object at [r] is updated in place. *)
Definition assign (r : loc) (upd : JobObj → JobObj) : heapM unit := λ h,
  o ← objs h !! r; Some ((), mkHeap (<[r := upd o]> (objs h)) (arrs h)).

Definition get_view (r : loc) : heapM Job := λ h,
  j ← view h r; Some (j, h).

(** Part_003:69-75: the intake image of the copy. *)
Definition compressIntake (host : Host) (jobToSave : loc) : heapM unit :=
  o ← get_obj jobToSave;
  match read (o_intakeImage o) with
  | Some img =>
      if truthy (Some img)
      then assign jobToSave (λ o, with_intakeImage o (Value (compressImage_default host img)))
      else mret ()
  | None => mret ()
  end.

(** Part_003:78-87: the damage images of the copy; [map] makes a new
    array and the assignment puts it in the copy. *)
Definition compressDamage (host : Host) (jobToSave : loc) : heapM unit :=
  o ← get_obj jobToSave;
  match read (o_damageImages o) with
  | Some a =>
      imgs ← get_arr a;
      if nonempty_images (Some imgs)
      then
        compressedImages ← alloc_arr (compressImage_default host <$> imgs);
        assign jobToSave (λ o, with_damageImages o (Value compressedImages))
      else mret ()
  | None => mret ()
  end.

(** [prepareJobForCloud] (part_003:64-90): [{ ...job }], then the two
    steps on the copy. *)
Definition prepareJobForCloud (host : Host) (job : loc) : heapM loc :=
  o ← get_obj job;
  jobToSave ← alloc_obj o;
  compressIntake host jobToSave;;
  compressDamage host jobToSave;;
  mret jobToSave.

(** The loop of part_003:155-167 over [jobsToSave]. *)
Fixpoint saveLoop (host : Host) (jobsToSave : list loc) (st : list batchOp * Z)
  : heapM (list batchOp * Z) :=
  match jobsToSave with
  | [] => mret st
  | job :: rest =>
      o ← get_obj job;
      dataToSave ← prepareJobForCloud host job;
      data ← get_view dataToSave;
      saveLoop host rest (st.1 ++ [(o_id o, cleanData data)], st.2 + 1)
  end.

(** Part_003:146-173 after the merge: the batch that is committed and the
    array that is returned. *)
Definition writePhase (host : Host) (mergedJobs : list loc)
  : heapM (list batchOp * Z * list loc) :=
  st ← saveLoop host (take 450 mergedJobs) ([], 0);
  mret (st, mergedJobs).

End Store.

(** ** A reference host

    One concrete [Host], used to run the definitions on examples.  Its
    [Date] writes and reads the ISO format of ECMAScript (years 0000 to 9999
    on the reading side, and nothing but that format); its [JSON.parse]
    knows [null], [true], [false] and arrays of string literals without
    escapes; its pictures are toys: a non-empty string is a 1600 by 1200
    picture, and encoding at size [w] by [h] writes the size in front. *)

Module RefHost.

Fixpoint digits (n : nat) (z : Z) (acc : string) : string :=
  match n with
  | O => acc
  | S n' =>
      digits n' (z / 10) (String (ascii_of_nat (48 + Z.to_nat (z mod 10))) acc)
  end.

(** [z] in [n] decimal digits. *)
Definition pad (n : nat) (z : Z) : string := digits n z "".

(** Day number since 1970-01-01 to year, month, day (proleptic Gregorian). *)
Definition civil_from_days (z : Z) : Z * Z * Z :=
  let z := z + 719468 in
  let era := z / 146097 in
  let doe := z - era * 146097 in
  let yoe := (doe - doe / 1460 + doe / 36524 - doe / 146096) / 365 in
  let y := yoe + era * 400 in
  let doy := doe - (365 * yoe + yoe / 4 - yoe / 100) in
  let mp := (5 * doy + 2) / 153 in
  let d := doy - (153 * mp + 2) / 5 + 1 in
  let m := if mp <? 10 then mp + 3 else mp - 9 in
  (if m <=? 2 then y + 1 else y, m, d).

Definition days_from_civil (y m d : Z) : Z :=
  let y := if m <=? 2 then y - 1 else y in
  let era := y / 400 in
  let yoe := y - era * 400 in
  let doy := (153 * (if 2 <? m then m - 3 else m + 9) + 2) / 5 + d - 1 in
  let doe := yoe * 365 + yoe / 4 - yoe / 100 + doy in
  era * 146097 + doe - 719468.

Definition toISOString (t : Z) : string :=
  let day := t / 86400000 in
  let ms := t mod 86400000 in
  let '(y, m, d) := civil_from_days day in
  let yyyy :=
    if (0 <=? y) && (y <=? 9999) then pad 4 y
    else (if y <? 0 then "-" else "+") +:+ pad 6 (Z.abs y) in
  yyyy +:+ "-" +:+ pad 2 m +:+ "-" +:+ pad 2 d +:+ "T"
    +:+ pad 2 (ms / 3600000) +:+ ":" +:+ pad 2 (ms / 60000 mod 60) +:+ ":"
    +:+ pad 2 (ms / 1000 mod 60) +:+ "." +:+ pad 3 (ms mod 1000) +:+ "Z".

Fixpoint number_from (s : string) (acc : Z) : option Z :=
  match s with
  | EmptyString => Some acc
  | String c s' =>
      let n := Z.of_nat (nat_of_ascii c) in
      if (48 <=? n) && (n <=? 57) then number_from s' (10 * acc + (n - 48)) else None
  end.

(** The digits of [s] from position [i], [n] of them. *)
Definition number_at (i n : nat) (s : string) : option Z :=
  let d := substring i n s in
  if bool_decide (String.length d = n) then number_from d 0 else None.

Definition Date_parse (s : string) : jsnum :=
  match number_at 0 4 s, number_at 5 2 s, number_at 8 2 s,
        number_at 11 2 s, number_at 14 2 s, number_at 17 2 s, number_at 20 3 s with
  | Some y, Some m, Some d, Some hh, Some mm, Some ss, Some ms =>
      let t := days_from_civil y m d * 86400000
               + hh * 3600000 + mm * 60000 + ss * 1000 + ms in
      if bool_decide (toISOString t = s) then Num t else NaN
  | _, _, _, _, _, _, _ => NaN
  end.

Definition quote : ascii := ascii_of_nat 34.
Definition backslash : ascii := ascii_of_nat 92.

(** String literals up to the closing bracket: [open] is the literal being
    read, if one is open. *)
Fixpoint literals (s : string) (open : option string) (afterItem : bool)
  : option (list string) :=
  match s with
  | EmptyString => None
  | String c s' =>
      match open with
      | Some acc =>
          if bool_decide (c = quote) then (acc ::.) <$> literals s' None true
          else if bool_decide (c = backslash) then None
          else literals s' (Some (acc +:+ String c "")) false
      | None =>
          if bool_decide (c = quote) then
            if afterItem then None else literals s' (Some "") false
          else if bool_decide (c = ","%char) then
            if afterItem then literals s' None false else None
          else if bool_decide (c = "]"%char) then
            if afterItem && bool_decide (s' = "") then Some [] else None
          else None
      end
  end.

Definition JSON_parse (s : string) : result parsed :=
  if bool_decide (s = "[]") then Ok (PArray [])
  else if bool_decide (s = "null") || bool_decide (s = "true") || bool_decide (s = "false")
  then Ok POther
  else
    match s with
    | String "[" s' =>
        match literals s' None false with
        | Some l => Ok (PArray l)
        | None => Throw SyntaxError
        end
    | _ => Throw SyntaxError
    end.

Definition loadImage (s : string) : option Image :=
  if bool_decide (s = "") then None else Some (mkImage 1600 1200).

Definition toDataURL_payload (s : string) (w ht quality : Z) : string :=
  pad 4 w +:+ "x" +:+ pad 4 ht +:+ "q" +:+ pad 2 quality +:+ ":" +:+ s.

End RefHost.

Definition refHost : Host :=
  {| now := 1700000000000;
     toISOString := RefHost.toISOString;
     Date_parse := RefHost.Date_parse;
     JSON_parse := RefHost.JSON_parse;
     loadImage := RefHost.loadImage;
     getContext2d := λ _ _, true;
     toDataURL_payload := RefHost.toDataURL_payload |}.

(** * Vocabulary of the statements *)

(** [a] stands before [b] in a descending list. *)
Definition desc (a b : Job) : Prop := jsnum_geb (createdAt a) (createdAt b) = true.

Definition sortedDesc (l : list Job) : Prop := StronglySorted desc l.

Definition timed (j : Job) : Prop := is_num (createdAt j).

(** The set of ids of a list of jobs. *)
Definition ids (l : list Job) : gset string := list_to_set (id <$> l).

(** The keys of the map are distinct and each job sits under its own id. *)
Definition keyed (m : jobMap) : Prop :=
  NoDup (map_keys m) ∧ ∀ k v, (k, v) ∈ m → id v = k.

Definition seedStep (m : jobMap) (r : Job) : jobMap := map_set (id r) r m.

(** What the map holds under the id of a local job once the local list
    is overlaid: the combination with what was there, or the job itself. *)
Definition overlaid (prev : option Job) (l : Job) : Job :=
  match prev with
  | Some r => overlay r l
  | None => l
  end.

Definition mergedMap (localJobs remoteJobs : list Job) : jobMap :=
  foldl overlayLocal (seedFirebase remoteJobs) localJobs.

(** Whether a comma occurs in a string. *)
Fixpoint has_comma (s : string) : bool :=
  match s with
  | EmptyString => false
  | String c s' => bool_decide (c = ","%char) || has_comma s'
  end.

Definition no_comma (s : string) : Prop := has_comma s = false.

(** A text of the car of a job, empty when the job has no car. *)
Definition carText (p : CarDetails → string) (job : Job) : string :=
  default "" (p <$> read (carDetails job)).

Definition carOptText (p : CarDetails → option string) (job : Job) : string :=
  default "" (read (carDetails job) ≫= p).

(** The texts of a job other than its parts. *)
Definition textFields (job : Job) : list string :=
  [ id job; status job;
    carText plate job; carText make job; carText model job;
    carOptText year job; carOptText color job;
    repairType job; manualNotes job ].

(** The row round-trip read literally, for one job: the row is produced,
    every text comes back, the images come back empty, and the parts come
    back up to order when none has a comma. *)
Definition roundtrip_as_stated (h : Host) (job : Job) : Prop :=
  ∃ r, jobToRow h job = Ok r
       ∧ textFields (rowToJob h r) = textFields job
       ∧ read (intakeImage (rowToJob h r)) = None
       ∧ read (damageImages (rowToJob h r)) = Some []
       ∧ (Forall no_comma (identifiedParts job) →
          identifiedParts (rowToJob h r) ≡ₚ identifiedParts job).

(** One write of the batch for a job. *)
Definition payload (h : Host) (job : Job) : batchOp :=
  (id job, cleanData (prepareJobForCloud h job)).

(** The settings [syncWithFirebase] asks for. *)
Definition firebaseConfigured (settings : AppSettings) : bool :=
  match firebaseConfig settings with
  | Some config => truthy (Some (apiKey config))
  | None => false
  end.

(** The settings [syncWithGoogleSheets] asks for. *)
Definition sheetsConfigured (settings : AppSettings) : bool :=
  truthy (googleSheetId settings) && truthy (googleAccessToken settings).

(** Every object and array of [h] is still there, unchanged, in [h']. *)
Definition extends (h h' : Store.heap) : Prop :=
  Store.objs h ⊆ Store.objs h' ∧ Store.arrs h ⊆ Store.arrs h'.

(** What the intake step leaves in the copy. *)
Definition intakeDone (host : Host) (o : Store.JobObj) : Store.JobObj :=
  match read (Store.o_intakeImage o) with
  | Some img =>
      if truthy (Some img)
      then Store.with_intakeImage o (Value (compressImage_default host img))
      else o
  | None => o
  end.

(** ** Examples *)

Module Examples.

Definition car : CarDetails := mkCar "1234ABC" "Seat" "Ibiza" (Some "2019") (Some "rojo").

(** The scenario of the merge: the same job on both sides, other notes
    on the local side, the only picture on the remote side. *)
Definition localA : Job :=
  mkJob "A" (Num 100) JobStatus.ASSESSING (Value car) Undefined (Value []) ["capo"] "x" "CHAPA".
Definition remoteA : Job :=
  mkJob "A" (Num 100) JobStatus.INTAKE (Value car) Missing (Value ["img1"]) [] "y" "AMBOS".

(** A local job that carries no [carDetails]. *)
Definition localBare : Job :=
  mkJob "A" (Num 100) JobStatus.ASSESSING Missing Undefined (Value []) ["capo"] "x" "CHAPA".

(** Rows of the sheet: one without an id, one whose date does not parse. *)
Definition rowNoId : row :=
  [Some ""; Some "2023-11-14T22:13:20.000Z"; Some "Ingreso"; Some "1234ABC"].
Definition rowOld : row :=
  [Some "A"; Some "2023-11-14T22:13:20.000Z"; Some "Ingreso"].
Definition rowBadDate : row :=
  [Some "X"; Some "not-a-date"; Some "Ingreso"].
Definition rowNew : row :=
  [Some "B"; Some "2023-11-15T22:13:20.000Z"; Some "Ingreso"].

End Examples.

Module RowExamples.
Import Examples.

(** A job with its car's year and colour filled in. *)
Definition withColour : Job :=
  mkJob "A" (Num 1700000000000) JobStatus.ASSESSING (Value car) Undefined (Value [])
        ["capo"; "puerta"] "x" "CHAPA".

(** A job whose only part is the empty string. *)
Definition emptyPart : Job :=
  mkJob "A" (Num 1700000000000) JobStatus.ASSESSING Missing Undefined (Value [])
        [""] "x" "CHAPA".

(** A job without a time stamp. *)
Definition untimed : Job :=
  mkJob "A" NaN JobStatus.ASSESSING Missing Undefined (Value []) [] "x" "CHAPA".

(** A job that the row carries in full. *)
Definition plain : Job :=
  mkJob "A" (Num 1700000000000) JobStatus.ASSESSING
        (Value (mkCar "1234ABC" "Seat" "Ibiza" None None)) (Value "aW1n") (Value ["aW1n"])
        ["capo"; "puerta"] "x" "CHAPA".
End RowExamples.

Module SyncExamples.
Import Examples.

(** A backend that holds the remote collection and accepts every batch;
    its state is the batch it was last asked to commit. *)
Definition store (remoteJobs : list Job) : Backend (list batchOp) :=
  {| onGetDocs := λ _ w, (Ok remoteJobs, w);
     onCommit := λ _ ops _, (Ok (), ops);
     onFetch := λ _ w, (Throw (Rejected "offline"), w) |}.

Definition config : FirebaseConfig :=
  mkFirebaseConfig "key" "taller.firebaseapp.com" "taller" None None "1:2:web:3".

Definition withFirebase : AppSettings := mkSettings (Some config) None None.
Definition withNothing : AppSettings := mkSettings None None None.

Definition localB : Job :=
  mkJob "B" (Num 200) JobStatus.INTAKE (Value car) (Value "aW1n") (Value ["ZGFt"]) [] "" "CHAPA".
End SyncExamples.

Module StoreExamples.
Import Examples.

(** A store with the merged job of the scenario: the object at 1 and its
    picture array at 1. *)
Definition merged : Store.JobObj :=
  Store.mkObj "A" (Num 100) JobStatus.ASSESSING (Value car) (Value "aW1n") (Value 1%positive)
              ["capo"] "x" "CHAPA".
Definition heap0 : Store.heap :=
  Store.mkHeap {[ 1%positive := merged ]} {[ 1%positive := ["ZGFt"] ]}.
Definition mergedJob : Job :=
  mkJob "A" (Num 100) JobStatus.ASSESSING (Value car) (Value "aW1n") (Value ["ZGFt"])
        ["capo"] "x" "CHAPA".
End StoreExamples.

Module MergeExamples.
Import Examples.

(** The two scenarios of the image fallback: a local job without pictures
    against a remote job with three, and a local job with two pictures
    against a remote job with none. *)
Definition localEmpty : Job :=
  mkJob "J" (Num 300) JobStatus.ASSESSING (Value car) Undefined (Value []) ["capo"] "x" "CHAPA".
Definition remoteThree : Job :=
  mkJob "J" (Num 300) JobStatus.INTAKE (Value car) (Value "cmVt")
        (Value ["cjE="; "cjI="; "cjM="]) [] "y" "AMBOS".
Definition localTwo : Job :=
  mkJob "J" (Num 300) JobStatus.ASSESSING (Value car) (Value "bG9j")
        (Value ["bDE="; "bDI="]) ["capo"] "x" "CHAPA".
Definition remoteNone : Job :=
  mkJob "J" (Num 300) JobStatus.INTAKE (Value car) (Value "cmVt") (Value []) [] "y" "AMBOS".

(** A remote job of its own id, and a local job with the time stamp of
    [remoteA]. *)
Definition remoteC : Job :=
  mkJob "C" (Num 150) JobStatus.INTAKE (Value car) Missing (Value []) [] "" "PINTURA".
Definition sameTime : Job :=
  mkJob "B" (Num 100) JobStatus.INTAKE (Value car) Undefined (Value []) [] "" "CHAPA".

End MergeExamples.

(** * More of the services, and the application shell *)

(** ** Vocabulary for the merge and the row codec *)

#[global] Instance jsnum_eq_dec : EqDecision jsnum.
Proof. solve_decision. Defined.

(** The jobs of a list with a given time stamp, in the order of the list. *)
Definition stamped (t : jsnum) (l : list Job) : list Job :=
  filter (λ j, createdAt j = t) l.

(** A job under its id, as [jobMap.set(job.id, job)] stores it. *)
Definition entry (j : Job) : string * Job := (id j, j).

(** The texts [rowToJob] hands to [JSON.parse]. *)
Definition intakeCell (r : row) : string := or_else (at_ r 9) "[]".
Definition damageCell (r : row) : string := or_else (at_ r 10) "[]".

Module MoreExamples.

(** A row whose intake cell is not JSON. *)
Definition rowBadIntake : row :=
  [Some "A"; None; None; None; None; None; None; None; None; Some "not json"; Some "[]"].

(** A row with some cells missing and a parts cell that ends in the
    separator. *)
Definition rowPartial : row :=
  [Some "A"; Some "2023-11-14T22:13:20.000Z"; None; Some "1234ABC";
   None; None; None; Some "capo, puerta, "].

(** A row of empty and [undefined] cells, with a cell too many. *)
Definition rowBlank : row :=
  [Some ""; None; Some ""; None; Some ""; None; Some ""; None; Some ""; None; Some "";
   Some "ignored"].
End MoreExamples.

(** ** The phases of the spreadsheet orchestrator *)

(** The requests of the spreadsheet service, as part_004 builds them. *)
Definition BASE_URL (settings : AppSettings) : string :=
  "https://sheets.googleapis.com/v4/spreadsheets/" +:+ interpolate (googleSheetId settings).

Definition metaRequest (settings : AppSettings) : request :=
  mkRequest "GET"
    (BASE_URL settings +:+ "?fields=sheets.properties.title&access_token="
       +:+ interpolate (googleAccessToken settings))
    false None.

Definition addSheetRequest (settings : AppSettings) : request :=
  mkRequest "POST"
    (BASE_URL settings +:+ ":batchUpdate?access_token="
       +:+ interpolate (googleAccessToken settings))
    true (Some addSheetBody).

Definition headerRequest (settings : AppSettings) : request :=
  mkRequest "POST"
    (BASE_URL settings +:+ "/values/" +:+ SHEET_NAME
       +:+ "!A1:append?valueInputOption=USER_ENTERED&access_token="
       +:+ interpolate (googleAccessToken settings))
    true (Some (valuesBody (SHEET_NAME +:+ "!A1") [Some <$> sheetHeaders])).

Definition valuesRequest (settings : AppSettings) : request :=
  mkRequest "GET"
    (BASE_URL settings +:+ "/values/" +:+ SHEET_NAME +:+ "!A2:K?access_token="
       +:+ interpolate (googleAccessToken settings))
    false None.

Definition clearRequest (settings : AppSettings) : request :=
  mkRequest "POST"
    (BASE_URL settings +:+ "/values/" +:+ SHEET_NAME +:+ "!A2:K1000:clear?access_token="
       +:+ interpolate (googleAccessToken settings))
    false (Some {[ "range" := JString (SHEET_NAME +:+ "!A2:K1000") ]}).

Definition appendRequest (settings : AppSettings) (rows : list row) : request :=
  mkRequest "POST"
    (BASE_URL settings +:+ "/values/" +:+ SHEET_NAME
       +:+ "!A2:append?valueInputOption=USER_ENTERED&access_token="
       +:+ interpolate (googleAccessToken settings))
    true (Some (valuesBody (SHEET_NAME +:+ "!A2") rows)).

(** Whether the named tab is among the titles of the metadata. *)
Definition tabListed (data : resData) : bool :=
  match sheets data with
  | Some titles => existsb (λ title, bool_decide (title = SHEET_NAME)) titles
  | None => false
  end.

(** The jobs part_004:139-150 takes from the answer to the read of the rows:
    none unless the answer is a success whose body has [values]. *)
Definition sheetJobsOf (h : Host) (reply : result response) : list Job :=
  match reply with
  | Ok resp =>
      if ok resp then
        match json resp with
        | Ok data =>
            match values data with
            | Some rows => rowToJob h <$> rows
            | None => []
            end
        | Throw _ => []
        end
      else []
  | Throw _ => []
  end.

(** Part_004:189-216, the write-back of a merged list. *)
Definition writeBack (settings : AppSettings) (h : Host) (mergedJobs : list Job)
  : prog (list Job) :=
  fetch (clearRequest settings);;
  rows ← settle (map_result (jobToRow h) mergedJobs);
  writeResponse ← fetch (appendRequest settings rows);
  if negb (ok writeResponse) then
    err ← settle (json writeResponse);
    Fail (Error ("Error escribiendo en Sheet: "
                 +:+ or_else (error_message err) "Unknown error"))
  else Ret mergedJobs.

(** The pictures of a job that [prepareJobForCloud] sends to [compressImage]. *)
Definition picturesOf (job : Job) : list string :=
  match read (intakeImage job) with
  | Some img => if truthy (Some img) then [img] else []
  | None => []
  end ++ default [] (read (damageImages job)).

(** Part_004:139-150, the read of the rows. *)
Definition readSheet (settings : AppSettings) (h : Host) : prog (list Job) :=
  try_catch
    (response ← fetch (valuesRequest settings);
     if ok response then
       data ← settle (json response);
       match values data with
       | Some rows => Ret (rowToJob h <$> rows)
       | None => Ret []
       end
     else Ret [])
    (λ _, Ret []).

(** A cell of the image columns as [jobToRow] writes it. *)
Definition emptyImageCells (r : row) : Prop :=
  at_ r 9 = Some "[]" ∧ at_ r 10 = Some "[]".

Module SheetExamples.

Definition settings : AppSettings := mkSettings None (Some "sheet1") (Some "token1").

Definition okBody (data : resData) : response := mkResponse true 200 (Ok data).
Definition noData : resData := mkResData None None None.
Definition failed (code : Z) : response := mkResponse false code (Ok noData).

(** A spreadsheet service: its state is the list of answers it still has to
    give, one per request. *)
Definition scripted : Backend (list (result response)) :=
  {| onGetDocs := λ _ w, (Throw (Rejected "no document store"), w);
     onCommit := λ _ _ w, (Throw (Rejected "no document store"), w);
     onFetch := λ _ w,
       match w with
       | r :: w' => (r, w')
       | [] => (Throw (Rejected "offline"), [])
       end |}.

(** A document store that cannot be reached, and one that reads but
    refuses the batch. *)
Definition unreachable : Backend unit :=
  {| onGetDocs := λ _ w, (Throw (Rejected "unavailable"), w);
     onCommit := λ _ _ w, (Throw (Rejected "unavailable"), w);
     onFetch := λ _ w, (Throw (Rejected "offline"), w) |}.

Definition readOnly (remoteJobs : list Job) : Backend unit :=
  {| onGetDocs := λ _ w, (Ok remoteJobs, w);
     onCommit := λ _ _ w, (Throw (Rejected "permission-denied"), w);
     onFetch := λ _ w, (Throw (Rejected "offline"), w) |}.

Definition tabThere : response :=
  okBody (mkResData (Some ["Hoja 1"; "TallerProData"]) None None).
Definition tabMissing : response :=
  okBody (mkResData (Some ["Hoja 1"]) None None).

(** Answers to the read of the rows, to the clear and to the append. *)
Definition rowsRead : response :=
  okBody (mkResData None (Some [Examples.rowOld; Examples.rowNew]) None).
Definition accepted : response := okBody noData.

End SheetExamples.

(** The document-store key under which [batch.set] writes a document, and
    the [id] property of the document itself. *)
Definition docId (d : jv) : option jv :=
  match d with
  | JObject m => m !! "id"
  | _ => None
  end.

(** A host whose decoder rejects every picture ([img.onerror]). *)
Definition noDecoder : Host :=
  {| now := now refHost;
     toISOString := toISOString refHost;
     Date_parse := Date_parse refHost;
     JSON_parse := JSON_parse refHost;
     loadImage := λ _, None;
     getContext2d := getContext2d refHost;
     toDataURL_payload := toDataURL_payload refHost |}.

(** ** The application shell ([App], src/types.ts:76-346) *)

(** What a handler does to the state of the component, in the order in
    which it does it.  The calls to the store that come in between are in
    the trace of the run. *)
Inductive action : Type :=
| SetJobs (jobs : list Job)
| SetSyncStatus (s : string)
| AddToast (message kind : string)
| ConsoleError (message : string) (err : error)
| SetTimeout (ms : Z) (a : action).

(** [performSync] (src/types.ts:175-188). *)
Definition performSync (h : Host) (currentJobs : list Job) (currentSettings : AppSettings)
  : prog (list action) :=
  match firebaseConfig currentSettings with
  | None => Ret []
  | Some _ =>
      try_catch
        (merged ← syncWithFirebase h currentJobs currentSettings;
         Ret [SetSyncStatus "syncing"; SetJobs merged; SetSyncStatus "synced";
              SetTimeout 3000 (SetSyncStatus "idle")])
        (λ err, Ret [SetSyncStatus "syncing"; ConsoleError "Sync failed" err;
                     SetSyncStatus "error"])
  end.

(** [handleJobCreated] (src/types.ts:190-195). *)
Definition handleJobCreated (h : Host) (jobs : list Job) (settings : AppSettings)
    (newJob : Job) : prog (list action) :=
  let updatedJobs := newJob :: jobs in
  acts ← performSync h updatedJobs settings;
  Ret ([SetJobs updatedJobs; AddToast "Vehículo registrado correctamente" "success"] ++ acts).

(** [Partial<Job>]: each property is left out or given.  A required
    property of [Job] that is given has a value of its type. *)
Record Updates : Type := mkUpdates {
  u_id : option string;
  u_createdAt : option jsnum;
  u_status : option string;
  u_carDetails : field CarDetails;
  u_intakeImage : field string;
  u_damageImages : field (list string);
  u_identifiedParts : option (list string);
  u_manualNotes : option string;
  u_repairType : option string
}.

(** A whole [Job] given where a [Partial<Job>] is asked for, as the details
    form does ([onSave(formData.id, formData)], part_000:141). *)
Definition asUpdates (formData : Job) : Updates :=
  {| u_id := Some (id formData);
     u_createdAt := Some (createdAt formData);
     u_status := Some (status formData);
     u_carDetails := carDetails formData;
     u_intakeImage := intakeImage formData;
     u_damageImages := damageImages formData;
     u_identifiedParts := Some (identifiedParts formData);
     u_manualNotes := Some (manualNotes formData);
     u_repairType := Some (repairType formData) |}.

(** [{ ...job, ...updates }] *)
Definition applyUpdates (job : Job) (updates : Updates) : Job :=
  {| id := default (id job) (u_id updates);
     createdAt := default (createdAt job) (u_createdAt updates);
     status := default (status job) (u_status updates);
     carDetails := spread2 (carDetails job) (u_carDetails updates);
     intakeImage := spread2 (intakeImage job) (u_intakeImage updates);
     damageImages := spread2 (damageImages job) (u_damageImages updates);
     identifiedParts := default (identifiedParts job) (u_identifiedParts updates);
     manualNotes := default (manualNotes job) (u_manualNotes updates);
     repairType := default (repairType job) (u_repairType updates) |}.

(** The [updatedJobs] of [handleUpdateJob] (src/types.ts:198). *)
Definition updatedJobs (jobs : list Job) (jobId : string) (updates : Updates) : list Job :=
  (λ job, if decide (id job = jobId) then applyUpdates job updates else job) <$> jobs.

(** [handleUpdateJob] (src/types.ts:197-201). *)
Definition handleUpdateJob (h : Host) (jobs : list Job) (settings : AppSettings)
    (jobId : string) (updates : Updates) : prog (list action) :=
  let updatedJobs := updatedJobs jobs jobId updates in
  acts ← performSync h updatedJobs settings;
  Ret (SetJobs updatedJobs :: acts).

Module AppExamples.
(** The update of [saveWorkOrder] (DamageAssessmentTab.tsx:94-99). *)
Definition workOrder : Updates :=
  mkUpdates None None (Some JobStatus.IN_PROGRESS) Missing Missing Missing
    (Some ["Capó"]) (Some "golpe frontal") (Some "AMBOS").

(** The form of the details window once [localA] was marked as finished. *)
Definition formData : Job :=
  mkJob "A" (Num 100) JobStatus.COMPLETED (Value Examples.car) Undefined (Value [])
        ["capo"] "entregado" "CHAPA".
End AppExamples.

(** * Properties of the merge engine *)

Section JobMap.
Implicit Types (m : jobMap) (k : string) (v : Job).

Lemma map_get_set_eq k v m : map_get k (map_set k v m) = Some v.
Proof.
  induction m as [|[k' v'] m IH]; simpl.
  - by rewrite decide_True.
  - destruct (decide (k = k')) as [->|Hne]; simpl.
    + by rewrite decide_True.
    + by rewrite decide_False.
Qed.

Lemma map_get_set_ne k k' v m : k ≠ k' → map_get k' (map_set k v m) = map_get k' m.
Proof.
  intros Hne. induction m as [|[k0 v0] m IH]; simpl.
  - by rewrite decide_False.
  - destruct (decide (k = k0)) as [->|Hne0]; simpl.
    + by rewrite !decide_False.
    + by rewrite IH.
Qed.

Lemma map_keys_set_old k v m :
  k ∈ map_keys m → map_keys (map_set k v m) = map_keys m.
Proof.
  unfold map_keys. induction m as [|[k' v'] m IH]; csimpl.
  - by intros ?%elem_of_nil.
  - destruct (decide (k = k')) as [->|Hne]; csimpl; [done|].
    intros [?|?]%elem_of_cons; [done|]. by rewrite IH.
Qed.

Lemma map_keys_set_new k v m :
  k ∉ map_keys m → map_keys (map_set k v m) = map_keys m ++ [k].
Proof.
  unfold map_keys. induction m as [|[k' v'] m IH]; csimpl; [done|].
  intros [? ?]%not_elem_of_cons. rewrite decide_False by done. csimpl.
  by rewrite IH.
Qed.

Lemma map_get_Some_elem k v m : map_get k m = Some v → (k, v) ∈ m.
Proof.
  induction m as [|[k' v'] m IH]; simpl; [done|].
  destruct (decide (k = k')) as [->|Hne].
  - intros [= ->]. by left.
  - intros ?. right. auto.
Qed.

Lemma elem_map_get k v m : NoDup (map_keys m) → (k, v) ∈ m → map_get k m = Some v.
Proof.
  unfold map_keys. induction m as [|[k' v'] m IH]; simpl.
  - by intros _ ?%elem_of_nil.
  - intros [Hnin Hnd]%NoDup_cons [[= -> ->]|Hin]%elem_of_cons.
    + by rewrite decide_True.
    + rewrite decide_False; [by apply IH|].
      intros ->. apply Hnin. by apply (list_elem_of_fmap_2 fst _ (k', v)).
Qed.

Lemma map_set_NoDup k v m : NoDup (map_keys m) → NoDup (map_keys (map_set k v m)).
Proof.
  intros Hnd. destruct (decide (k ∈ map_keys m)) as [Hin|Hnin].
  - by rewrite map_keys_set_old.
  - rewrite map_keys_set_new by done.
    apply NoDup_app. split_and!; [done| |apply NoDup_singleton].
    by intros x Hx ->%list_elem_of_singleton.
Qed.

End JobMap.

(** ** Sorting *)

Section Sorting.

Lemma sort_insert_perm a l : sort_insert a l ≡ₚ a :: l.
Proof.
  induction l as [|b l IH]; simpl; [done|].
  destruct (positive_cmp (comparator a b)); [|done].
  rewrite IH. apply Permutation_swap.
Qed.

Lemma sortByCreatedAtDesc_perm l : sortByCreatedAtDesc l ≡ₚ l.
Proof.
  induction l as [|a l IH]; simpl; [done|].
  rewrite sort_insert_perm. by rewrite IH.
Qed.

Lemma elem_of_sortByCreatedAtDesc j l : j ∈ sortByCreatedAtDesc l ↔ j ∈ l.
Proof. by rewrite sortByCreatedAtDesc_perm. Qed.

Lemma desc_num a b x y :
  createdAt a = Num x → createdAt b = Num y → desc a b ↔ y ≤ x.
Proof. unfold desc. intros -> ->. simpl. apply Z.leb_le. Qed.

Lemma sort_insert_sorted a l :
  timed a → Forall timed l → sortedDesc l → sortedDesc (sort_insert a l).
Proof.
  unfold sortedDesc. intros Ha Hl Hs.
  induction Hs as [|b l Hs IH Hb]; simpl.
  - repeat constructor.
  - apply Forall_cons in Hl as [Hb' Hl].
    unfold timed in Ha, Hb'. unfold comparator.
    destruct (createdAt a) as [x|] eqn:Ea; [|done].
    destruct (createdAt b) as [y|] eqn:Eb; [|done]. simpl.
    destruct (0 <? y - x) eqn:Hlt.
    + apply Z.ltb_lt in Hlt. constructor; [by apply IH|].
      rewrite sort_insert_perm. constructor; [|done].
      apply (desc_num _ _ _ _ Eb Ea). lia.
    + apply Z.ltb_ge in Hlt. constructor; [by constructor|].
      constructor; [apply (desc_num _ _ _ _ Ea Eb); lia|].
      eapply Forall_impl; [exact Hb|]. intros c Hc.
      unfold desc in *. rewrite Ea. rewrite Eb in Hc.
      destruct (createdAt c); [|done].
      simpl in *. apply Z.leb_le. apply Z.leb_le in Hc. lia.
Qed.

Lemma sortByCreatedAtDesc_sorted l :
  Forall timed l → sortedDesc (sortByCreatedAtDesc l).
Proof.
  induction 1 as [|a l Ha Hl IH]; simpl; [constructor|].
  apply sort_insert_sorted; [done| |done].
  by rewrite sortByCreatedAtDesc_perm.
Qed.

End Sorting.

(** ** The merge step *)

Section Merge.
Implicit Types (m : jobMap) (k : string) (v j l r : Job).

Lemma elem_of_map_set k v k' v' m :
  (k', v') ∈ map_set k v m → (k' = k ∧ v' = v) ∨ (k', v') ∈ m.
Proof.
  induction m as [|[k0 v0] m IH]; simpl.
  - intros ?%list_elem_of_singleton. naive_solver.
  - destruct (decide (k = k0)) as [->|Hne]; rewrite !elem_of_cons; naive_solver.
Qed.

Lemma keyed_nil : keyed [].
Proof. split; [constructor|]. by intros k v ?%elem_of_nil. Qed.

Lemma keyed_set k v m : keyed m → id v = k → keyed (map_set k v m).
Proof.
  intros [Hnd Hid] Hv. split; [by apply map_set_NoDup|].
  intros k' v' [[-> ->]|Hin]%elem_of_map_set; auto.
Qed.

Lemma keys_set k v m :
  list_to_set (map_keys (map_set k v m)) =@{gset string} {[k]} ∪ list_to_set (map_keys m).
Proof.
  destruct (decide (k ∈ map_keys m)) as [Hin|Hnin].
  - rewrite map_keys_set_old by done.
    apply (elem_of_list_to_set (C:=gset string)) in Hin. set_solver.
  - rewrite map_keys_set_new by done. rewrite list_to_set_app_L. set_solver.
Qed.

Lemma keyed_values m : keyed m → id <$> map_values m = map_keys m.
Proof.
  intros [_ Hid]. unfold map_values, map_keys.
  induction m as [|[k v] m IH]; csimpl; [done|].
  rewrite (Hid k v) by (by left). f_equal. apply IH.
  intros k' v' Hin. apply Hid. by right.
Qed.

Lemma elem_of_values v m : keyed m → v ∈ map_values m ↔ map_get (id v) m = Some v.
Proof.
  intros [Hnd Hid]. unfold map_values. split.
  - intros ([k v'] & -> & Hin)%list_elem_of_fmap. simpl.
    rewrite (Hid _ _ Hin). by apply elem_map_get.
  - intros Hin%map_get_Some_elem. by apply (list_elem_of_fmap_2 snd _ (id v, v)).
Qed.

(** *** Seeding from the remote list *)

Lemma seedFirebase_fold remoteJobs : seedFirebase remoteJobs = foldl seedStep [] remoteJobs.
Proof. done. Qed.

Lemma keyed_seedStep m remoteJobs : keyed m → keyed (foldl seedStep m remoteJobs).
Proof.
  revert m. induction remoteJobs as [|r rs IH]; intros m Hm; simpl; [done|].
  apply IH. by apply keyed_set.
Qed.

Lemma keys_seedStep m remoteJobs :
  list_to_set (map_keys (foldl seedStep m remoteJobs))
  =@{gset string} ids remoteJobs ∪ list_to_set (map_keys m).
Proof.
  revert m. induction remoteJobs as [|r rs IH]; intros m; simpl.
  - unfold ids. simpl. set_solver.
  - rewrite IH. unfold seedStep. rewrite keys_set. unfold ids. csimpl. set_solver.
Qed.

Lemma get_seedStep_other k m remoteJobs :
  k ∉ id <$> remoteJobs → map_get k (foldl seedStep m remoteJobs) = map_get k m.
Proof.
  revert m. induction remoteJobs as [|r rs IH]; intros m; csimpl; [done|].
  intros [Hr Hrs]%not_elem_of_cons. rewrite IH by done.
  unfold seedStep. by rewrite map_get_set_ne.
Qed.

(** With distinct remote ids, a remote job is found under its id. *)
Lemma get_seedStep m remoteJobs r :
  NoDup (id <$> remoteJobs) → r ∈ remoteJobs →
  map_get (id r) (foldl seedStep m remoteJobs) = Some r.
Proof.
  revert m. induction remoteJobs as [|x rs IH]; intros m; csimpl.
  - by intros _ ?%elem_of_nil.
  - intros [Hx Hnd]%NoDup_cons [->|Hin]%elem_of_cons.
    + rewrite get_seedStep_other by done. unfold seedStep. apply map_get_set_eq.
    + by apply IH.
Qed.

(** *** Overlaying the local list *)

Lemma keyed_overlayLocal m l : keyed m → keyed (overlayLocal m l).
Proof.
  intros Hm. unfold overlayLocal. destruct (map_get (id l) m); by apply keyed_set.
Qed.

Lemma keyed_foldl_overlayLocal m localJobs :
  keyed m → keyed (foldl overlayLocal m localJobs).
Proof.
  revert m. induction localJobs as [|l ls IH]; intros m Hm; simpl; [done|].
  apply IH. by apply keyed_overlayLocal.
Qed.

Lemma keys_overlayLocal m l :
  list_to_set (map_keys (overlayLocal m l)) =@{gset string} {[id l]} ∪ list_to_set (map_keys m).
Proof. unfold overlayLocal. destruct (map_get (id l) m); apply keys_set. Qed.

Lemma keys_foldl_overlayLocal m localJobs :
  list_to_set (map_keys (foldl overlayLocal m localJobs))
  =@{gset string} ids localJobs ∪ list_to_set (map_keys m).
Proof.
  revert m. induction localJobs as [|l ls IH]; intros m; simpl.
  - unfold ids. simpl. set_solver.
  - rewrite IH, keys_overlayLocal. unfold ids. csimpl. set_solver.
Qed.

Lemma get_overlayLocal_ne k m l :
  id l ≠ k → map_get k (overlayLocal m l) = map_get k m.
Proof.
  intros Hne. unfold overlayLocal.
  destruct (map_get (id l) m); by apply map_get_set_ne.
Qed.

Lemma get_foldl_overlayLocal_other k m localJobs :
  k ∉ id <$> localJobs → map_get k (foldl overlayLocal m localJobs) = map_get k m.
Proof.
  revert m. induction localJobs as [|l ls IH]; intros m; csimpl; [done|].
  intros [Hl Hls]%not_elem_of_cons. rewrite IH by done.
  by apply get_overlayLocal_ne.
Qed.

Lemma get_foldl_overlayLocal m localJobs l :
  NoDup (id <$> localJobs) → l ∈ localJobs →
  map_get (id l) (foldl overlayLocal m localJobs)
  = Some (overlaid (map_get (id l) m) l).
Proof.
  revert m. induction localJobs as [|x ls IH]; intros m; csimpl.
  - by intros _ ?%elem_of_nil.
  - intros [Hx Hnd]%NoDup_cons [->|Hin]%elem_of_cons.
    + rewrite get_foldl_overlayLocal_other by done.
      unfold overlayLocal, overlaid.
      destruct (map_get (id x) m); apply map_get_set_eq.
    + rewrite IH by done. rewrite get_overlayLocal_ne; [done|].
      intros Heq. apply Hx. rewrite Heq. by apply list_elem_of_fmap_2.
Qed.

(** *** The merged list *)

Lemma keyed_mergedMap localJobs remoteJobs : keyed (mergedMap localJobs remoteJobs).
Proof. apply keyed_foldl_overlayLocal, keyed_seedStep, keyed_nil. Qed.

Lemma elem_of_mergeFirebase j localJobs remoteJobs :
  j ∈ mergeFirebase localJobs remoteJobs
  ↔ map_get (id j) (mergedMap localJobs remoteJobs) = Some j.
Proof.
  unfold mergeFirebase. rewrite elem_of_sortByCreatedAtDesc.
  apply elem_of_values, keyed_mergedMap.
Qed.

Lemma ids_perm (xs ys : list Job) : xs ≡ₚ ys → ids xs = ids ys.
Proof. intros Hp. unfold ids. apply set_eq. intros x. rewrite !elem_of_list_to_set. by rewrite Hp. Qed.

Lemma ids_mergeFirebase localJobs remoteJobs :
  ids (mergeFirebase localJobs remoteJobs) = ids localJobs ∪ ids remoteJobs.
Proof.
  unfold mergeFirebase. rewrite (ids_perm _ _ (sortByCreatedAtDesc_perm _)).
  unfold ids at 1. rewrite keyed_values by apply keyed_mergedMap.
  unfold mergedMap. rewrite keys_foldl_overlayLocal, seedFirebase_fold, keys_seedStep.
  simpl. set_solver.
Qed.

Lemma NoDup_ids_mergeFirebase localJobs remoteJobs :
  NoDup (id <$> mergeFirebase localJobs remoteJobs).
Proof.
  unfold mergeFirebase. rewrite sortByCreatedAtDesc_perm.
  rewrite keyed_values by apply keyed_mergedMap. apply keyed_mergedMap.
Qed.

(** *** The spreadsheet variant is the same merge on the jobs that have an id *)

Lemma has_id_spec j : has_id j ↔ id j ≠ "".
Proof.
  unfold has_id, truthy. destruct (String.eqb_spec (id j) ""); simpl; naive_solver.
Qed.

Lemma seedSheets_filter sheetJobs :
  seedSheets sheetJobs = seedFirebase (filter has_id sheetJobs).
Proof.
  unfold seedSheets, seedFirebase. generalize ([] : jobMap).
  induction sheetJobs as [|j js IH]; intros m; simpl; [done|].
  destruct (has_id j) eqn:Hj.
  - rewrite filter_cons_True by (by rewrite Hj). simpl. apply IH.
  - rewrite filter_cons_False by (by apply Is_true_false). apply IH.
Qed.

Lemma overlayLocalSheets_filter m localJobs :
  foldl overlayLocalSheets m localJobs = foldl overlayLocal m (filter has_id localJobs).
Proof.
  revert m. induction localJobs as [|j js IH]; intros m; simpl; [done|].
  unfold overlayLocalSheets at 2. destruct (has_id j) eqn:Hj.
  - rewrite filter_cons_True by (by rewrite Hj). simpl. apply IH.
  - rewrite filter_cons_False by (by apply Is_true_false). apply IH.
Qed.

Lemma mergeSheets_filter localJobs sheetJobs :
  mergeSheets localJobs sheetJobs
  = mergeFirebase (filter has_id localJobs) (filter has_id sheetJobs).
Proof.
  unfold mergeSheets, mergeFirebase.
  by rewrite overlayLocalSheets_filter, seedSheets_filter.
Qed.

Lemma ids_filter_has_id (js : list Job) : ids (filter has_id js) = ids js ∖ {[""]}.
Proof.
  unfold ids. apply set_eq. intros x.
  rewrite elem_of_difference, !elem_of_list_to_set, !list_elem_of_fmap.
  setoid_rewrite list_elem_of_filter. setoid_rewrite has_id_spec.
  rewrite elem_of_singleton. naive_solver.
Qed.

End Merge.

Section MergeResults.
Implicit Types (m l r : Job) (localJobs remoteJobs : list Job).

Lemma NoDup_ids_filter (js : list Job) :
  NoDup (id <$> js) → NoDup (id <$> filter has_id js).
Proof.
  intros Hnd. eapply sublist_NoDup; [exact Hnd|].
  apply fmap_sublist, sublist_filter.
Qed.

(** With distinct ids on each side, the merged job under an id that both
    sides have is the combination of the two. *)
Lemma both_mergeFirebase localJobs remoteJobs l r :
  NoDup (id <$> localJobs) → NoDup (id <$> remoteJobs) →
  l ∈ localJobs → r ∈ remoteJobs → id r = id l →
  map_get (id l) (mergedMap localJobs remoteJobs) = Some (overlay r l).
Proof.
  intros Hl Hr Hinl Hinr Hid. unfold mergedMap.
  rewrite get_foldl_overlayLocal by done.
  rewrite seedFirebase_fold, <- Hid, get_seedStep by done. done.
Qed.

Lemma both_merged localJobs remoteJobs l r m :
  NoDup (id <$> localJobs) → NoDup (id <$> remoteJobs) →
  l ∈ localJobs → r ∈ remoteJobs → id r = id l →
  m ∈ mergeFirebase localJobs remoteJobs ∨ m ∈ mergeSheets localJobs remoteJobs →
  id m = id l → m = overlay r l.
Proof.
  intros Hl Hr Hinl Hinr Hid [Hm|Hm] Hidm.
  - apply elem_of_mergeFirebase in Hm. rewrite Hidm in Hm.
    rewrite (both_mergeFirebase _ _ l r) in Hm by done. congruence.
  - rewrite mergeSheets_filter in Hm.
    assert (has_id l) as Hhas.
    { apply has_id_spec. rewrite <- Hidm. intros Hempty.
      assert (id m ∈ ids (mergeFirebase (filter has_id localJobs) (filter has_id remoteJobs))) as Hin.
      { apply elem_of_list_to_set. by apply list_elem_of_fmap_2. }
      rewrite ids_mergeFirebase, !ids_filter_has_id in Hin. set_solver. }
    assert (has_id r) as Hhasr by (apply has_id_spec; rewrite Hid; by apply has_id_spec).
    apply elem_of_mergeFirebase in Hm. rewrite Hidm in Hm.
    rewrite (both_mergeFirebase _ _ l r) in Hm; [congruence|..];
      auto using NoDup_ids_filter; by apply list_elem_of_filter.
Qed.

Lemma both_exists_mergeFirebase localJobs remoteJobs l r :
  NoDup (id <$> localJobs) → NoDup (id <$> remoteJobs) →
  l ∈ localJobs → r ∈ remoteJobs → id r = id l →
  ∃ m, m ∈ mergeFirebase localJobs remoteJobs ∧ id m = id l.
Proof.
  intros. exists (overlay r l). split; [|done].
  apply elem_of_mergeFirebase. simpl. by apply both_mergeFirebase.
Qed.

Lemma both_exists_mergeSheets localJobs remoteJobs l r :
  NoDup (id <$> localJobs) → NoDup (id <$> remoteJobs) →
  l ∈ localJobs → r ∈ remoteJobs → id r = id l → id l ≠ "" →
  ∃ m, m ∈ mergeSheets localJobs remoteJobs ∧ id m = id l.
Proof.
  intros Hl Hr Hinl Hinr Hid Hne. rewrite mergeSheets_filter.
  apply (both_exists_mergeFirebase _ _ l r); auto using NoDup_ids_filter.
  - apply list_elem_of_filter. split; [by apply has_id_spec|done].
  - apply list_elem_of_filter. split; [apply has_id_spec; by rewrite Hid|done].
Qed.

Lemma read_written {A} (v : option A) : read (written v) = v.
Proof. by destruct v. Qed.

(** The time stamps of the merged jobs are time stamps of the inputs. *)
Lemma Forall_map_set (P : Job → Prop) k v (mp : jobMap) :
  Forall P (map_values mp) → P v → Forall P (map_values (map_set k v mp)).
Proof.
  unfold map_values. intros Hm Hv. induction mp as [|[k' v'] mp IH]; csimpl.
  - by repeat constructor.
  - csimpl in Hm. apply Forall_cons in Hm as [? ?].
    destruct (decide (k = k')); csimpl; constructor; auto.
Qed.

Lemma Forall_mergedMap (P : Job → Prop) localJobs remoteJobs :
  (∀ r l, P l → P (overlay r l)) →
  Forall P localJobs → Forall P remoteJobs →
  Forall P (map_values (mergedMap localJobs remoteJobs)).
Proof.
  intros Hov Hl Hr. unfold mergedMap, seedFirebase.
  assert (Forall P (map_values [])) as Hm by constructor.
  revert Hm. generalize ([] : jobMap).
  induction Hr as [|r rs Hr Hrs IH]; simpl.
  - intros mp Hm. revert mp Hm.
    induction Hl as [|l ls Hl Hls IH]; simpl; [done|].
    intros mp Hm. apply IH. unfold overlayLocal.
    destruct (map_get (id l) mp); apply Forall_map_set; auto.
  - intros mp Hm. apply IH. by apply Forall_map_set.
Qed.

Lemma Forall_filter_has_id (P : Job → Prop) (js : list Job) :
  Forall P js → Forall P (filter has_id js).
Proof. rewrite !Forall_forall. intros H x [_ Hx]%list_elem_of_filter. auto. Qed.

Lemma sortedDesc_createdAt (js : list Job) :
  sortedDesc js → StronglySorted (λ x y, jsnum_geb x y = true) (createdAt <$> js).
Proof.
  induction 1 as [|a js Hs IH Ha]; csimpl; constructor; [done|].
  by apply Forall_fmap.
Qed.

Lemma sorted_mergeFirebase localJobs remoteJobs :
  Forall timed localJobs → Forall timed remoteJobs →
  sortedDesc (mergeFirebase localJobs remoteJobs).
Proof.
  intros Hl Hr. apply sortByCreatedAtDesc_sorted.
  by apply Forall_mergedMap.
Qed.

End MergeResults.

(** * The claims about the merge engine *)

(** C1, as stated, fails for the spreadsheet orchestrator: a row of the
    sheet with an empty id cell decodes to a job whose id the merge of
    [syncWithGoogleSheets] leaves out. *)
Lemma merge_completeness_counterexample :
  let sheetJobs := [rowToJob refHost Examples.rowNoId] in
  ids (mergeSheets [] sheetJobs) ≠ ids [] ∪ ids sheetJobs.
Proof.
  cbv zeta. intros Heq.
  assert ("" ∈ ids (mergeSheets [] [rowToJob refHost Examples.rowNoId])) as Hin.
  { rewrite Heq. apply elem_of_union_r, elem_of_list_to_set. by left. }
  vm_compute in Hin. discriminate.
Qed.

(** C1 (amended).  Merge completeness: the ids of the merged list of
    [syncWithFirebase] are exactly the ids of the local list and the ids of
    the remote list; the ids of the merged list of [syncWithGoogleSheets]
    are exactly the non-empty ids of the two lists. *)
Theorem merge_completeness (localJobs remoteJobs : list Job) :
  ids (mergeFirebase localJobs remoteJobs) = ids localJobs ∪ ids remoteJobs
  ∧ ids (mergeSheets localJobs remoteJobs) = (ids localJobs ∪ ids remoteJobs) ∖ {[""]}.
Proof.
  split; [apply ids_mergeFirebase|].
  rewrite mergeSheets_filter, ids_mergeFirebase, !ids_filter_has_id. set_solver.
Qed.

(** C2, as stated, fails on [carDetails]: a local job without that property
    takes the remote one through the spread. *)
Lemma local_field_precedence_counterexample :
  let l := Examples.localBare in
  let r := Examples.remoteA in
  ∃ m, m ∈ mergeFirebase [l] [r] ∧ id m = id l
       ∧ read (carDetails m) ≠ read (carDetails l).
Proof.
  exists (overlay Examples.remoteA Examples.localBare).
  split; [|split; [done|discriminate]].
  vm_compute. by left.
Qed.

(** C2 (amended).  Local-field precedence: with distinct ids on each side,
    for a local job [l] and a remote job [r] of the same id, the merged job
    of that id has the [createdAt], [status], [identifiedParts],
    [manualNotes] and [repairType] of [l], and its [carDetails] is that
    of [l] when [l] carries the property and that of [r] otherwise; such a
    merged job exists (for the spreadsheet orchestrator, when the id is not
    empty). *)
Theorem local_field_precedence (localJobs remoteJobs : list Job) (l r : Job) :
  NoDup (id <$> localJobs) → NoDup (id <$> remoteJobs) →
  l ∈ localJobs → r ∈ remoteJobs → id r = id l →
  (∃ m, m ∈ mergeFirebase localJobs remoteJobs ∧ id m = id l)
  ∧ (id l ≠ "" → ∃ m, m ∈ mergeSheets localJobs remoteJobs ∧ id m = id l)
  ∧ ∀ m, m ∈ mergeFirebase localJobs remoteJobs ∨ m ∈ mergeSheets localJobs remoteJobs →
         id m = id l →
         createdAt m = createdAt l
         ∧ status m = status l
         ∧ identifiedParts m = identifiedParts l
         ∧ manualNotes m = manualNotes l
         ∧ repairType m = repairType l
         ∧ carDetails m = match carDetails l with
                          | Missing => carDetails r
                          | _ => carDetails l
                          end.
Proof.
  intros Hl Hr Hinl Hinr Hid. split_and!.
  - by apply (both_exists_mergeFirebase _ _ l r).
  - intros Hne. by apply (both_exists_mergeSheets _ _ l r).
  - intros m Hm Hidm.
    rewrite (both_merged localJobs remoteJobs l r m) by done. done.
Qed.

Lemma local_field_precedence_witness :
  let l := Examples.localA in
  let r := Examples.remoteA in
  (NoDup (id <$> [l]) ∧ NoDup (id <$> [r]) ∧ l ∈ [l] ∧ r ∈ [r] ∧ id r = id l)
  ∧ ∃ m, m ∈ mergeFirebase [l] [r] ∧ id m = id l ∧ manualNotes m = "x".
Proof.
  simpl.
  assert (NoDup (id <$> [Examples.localA])) as H1 by apply NoDup_singleton.
  assert (NoDup (id <$> [Examples.remoteA])) as H2 by apply NoDup_singleton.
  assert (Examples.localA ∈ [Examples.localA]) as H3 by (by left).
  assert (Examples.remoteA ∈ [Examples.remoteA]) as H4 by (by left).
  split; [done|].
  destruct (local_field_precedence [Examples.localA] [Examples.remoteA]
              Examples.localA Examples.remoteA H1 H2 H3 H4 eq_refl)
    as [[m [Hm Hid]] [_ Hfields]].
  exists m. split_and!; [done..|].
  by destruct (Hfields m (or_introl Hm) Hid) as (_ & _ & _ & -> & _).
Defined.

(** C3.  Image fallback: with distinct ids on each side, for a local job
    [l] and a remote job [r] of the same id, the merged job of that id has
    the [intakeImage] of [l] when that is a non-empty string and that of
    [r] when [l] has none or an empty one; it has the [damageImages] of [l]
    when that is an array with at least one picture and those of [r] when
    [l] has none or an empty array; such a merged job exists (for the
    spreadsheet orchestrator, when the id is not empty). *)
Theorem image_fallback (localJobs remoteJobs : list Job) (l r : Job) :
  NoDup (id <$> localJobs) → NoDup (id <$> remoteJobs) →
  l ∈ localJobs → r ∈ remoteJobs → id r = id l →
  (∃ m, m ∈ mergeFirebase localJobs remoteJobs ∧ id m = id l)
  ∧ (id l ≠ "" → ∃ m, m ∈ mergeSheets localJobs remoteJobs ∧ id m = id l)
  ∧ ∀ m, m ∈ mergeFirebase localJobs remoteJobs ∨ m ∈ mergeSheets localJobs remoteJobs →
         id m = id l →
         (∀ s, read (intakeImage l) = Some s → s ≠ "" → read (intakeImage m) = Some s)
         ∧ (read (intakeImage l) = None ∨ read (intakeImage l) = Some "" →
            read (intakeImage m) = read (intakeImage r))
         ∧ (∀ x xs, read (damageImages l) = Some (x :: xs) →
                    read (damageImages m) = Some (x :: xs))
         ∧ (read (damageImages l) = None ∨ read (damageImages l) = Some [] →
            read (damageImages m) = read (damageImages r)).
Proof.
  intros Hl Hr Hinl Hinr Hid. split_and!.
  - by apply (both_exists_mergeFirebase _ _ l r).
  - intros Hne. by apply (both_exists_mergeSheets _ _ l r).
  - intros m Hm Hidm.
    rewrite (both_merged localJobs remoteJobs l r m) by done.
    simpl. rewrite !read_written. split_and!.
    + intros s Hs Hne. rewrite Hs. by destruct s.
    + by intros [-> | ->].
    + by intros x xs ->.
    + by intros [-> | ->].
Qed.

Lemma image_fallback_witness :
  let l := MergeExamples.localEmpty in
  let r := MergeExamples.remoteThree in
  let l' := MergeExamples.localTwo in
  let r' := MergeExamples.remoteNone in
  (NoDup (id <$> [l]) ∧ NoDup (id <$> [r]) ∧ l ∈ [l] ∧ r ∈ [r] ∧ id r = id l
   ∧ NoDup (id <$> [l']) ∧ NoDup (id <$> [r']) ∧ l' ∈ [l'] ∧ r' ∈ [r'] ∧ id r' = id l')
  ∧ (∃ m, m ∈ mergeFirebase [l] [r] ∧ id m = "J"
          ∧ read (intakeImage m) = Some "cmVt"
          ∧ read (damageImages m) = Some ["cjE="; "cjI="; "cjM="])
  ∧ (∃ m, m ∈ mergeSheets [l'] [r'] ∧ id m = "J"
          ∧ read (intakeImage m) = Some "bG9j"
          ∧ read (damageImages m) = Some ["bDE="; "bDI="]).
Proof.
  cbv zeta.
  assert (∀ j : Job, NoDup (id <$> [j])) as Hnd by (intros j; apply NoDup_singleton).
  assert (∀ j : Job, j ∈ [j]) as Hin by (intros j; by left).
  split; [by split_and!|].
  destruct (image_fallback [MergeExamples.localEmpty] [MergeExamples.remoteThree]
              MergeExamples.localEmpty MergeExamples.remoteThree
              (Hnd _) (Hnd _) (Hin _) (Hin _) eq_refl)
    as ([m [Hm Hid]] & _ & Hback).
  destruct (image_fallback [MergeExamples.localTwo] [MergeExamples.remoteNone]
              MergeExamples.localTwo MergeExamples.remoteNone
              (Hnd _) (Hnd _) (Hin _) (Hin _) eq_refl)
    as (_ & Hex & Hown).
  destruct Hex as [m' [Hm' Hid']]; [done|].
  split.
  - exists m. destruct (Hback m (or_introl Hm) Hid) as (_ & Hintake & _ & Hdamage).
    split_and!; [exact Hm|exact Hid|..].
    + by rewrite Hintake by (by left).
    + by rewrite Hdamage by (by right).
  - exists m'. destruct (Hown m' (or_intror Hm') Hid') as (Hintake & _ & Hdamage & _).
    split_and!; [exact Hm'|exact Hid'|..].
    + by apply Hintake.
    + by apply Hdamage.
Defined.

(** C4, as stated, fails when a time stamp is [NaN]: a row of the sheet
    whose date cell does not parse decodes to such a job, the comparator
    is [NaN] against it, and the older job stays in front of the newer. *)
Lemma sort_order_counterexample :
  let sheetJobs := rowToJob refHost <$> [Examples.rowOld; Examples.rowBadDate; Examples.rowNew] in
  (createdAt <$> mergeSheets [] sheetJobs) = [Num 1700000000000; NaN; Num 1700086400000]
  ∧ ¬ sortedDesc (mergeSheets [] sheetJobs).
Proof.
  cbv zeta.
  assert (createdAt <$> mergeSheets []
            (rowToJob refHost <$> [Examples.rowOld; Examples.rowBadDate; Examples.rowNew])
          = [Num 1700000000000; NaN; Num 1700086400000]) as Hstamps by (by vm_compute).
  split; [exact Hstamps|].
  intros Hs%sortedDesc_createdAt. rewrite Hstamps in Hs.
  apply StronglySorted_inv in Hs as [_ Hall].
  apply Forall_cons in Hall as [Hnan _]. discriminate.
Qed.

(** C4 (amended).  Sort order: when every [createdAt] of the two lists is a
    number, the merged list of either orchestrator is sorted by [createdAt],
    newest first. *)
Theorem sort_order (localJobs remoteJobs : list Job) :
  Forall timed localJobs → Forall timed remoteJobs →
  sortedDesc (mergeFirebase localJobs remoteJobs)
  ∧ sortedDesc (mergeSheets localJobs remoteJobs).
Proof.
  intros Hl Hr. split; [by apply sorted_mergeFirebase|].
  rewrite mergeSheets_filter.
  apply sorted_mergeFirebase; by apply Forall_filter_has_id.
Qed.

Lemma sort_order_witness :
  let localJobs := [Examples.localA; SyncExamples.localB] in
  let remoteJobs := [Examples.remoteA] in
  (Forall timed localJobs ∧ Forall timed remoteJobs)
  ∧ (createdAt <$> mergeFirebase localJobs remoteJobs) = [Num 200; Num 100]
  ∧ sortedDesc (mergeFirebase localJobs remoteJobs)
  ∧ sortedDesc (mergeSheets localJobs remoteJobs).
Proof.
  cbv zeta.
  assert (Forall timed [Examples.localA; SyncExamples.localB]) as Hl
    by (repeat constructor).
  assert (Forall timed [Examples.remoteA]) as Hr by (repeat constructor).
  split; [done|]. split; [by vm_compute|].
  exact (sort_order [Examples.localA; SyncExamples.localB] [Examples.remoteA] Hl Hr).
Defined.

(** * Properties of the row codec *)

Section Strings.

Lemma app_nil_l (s : string) : "" +:+ s = s.
Proof. reflexivity. Qed.

Lemma app_cons_l (c : ascii) (s t : string) : String c s +:+ t = String c (s +:+ t).
Proof. reflexivity. Qed.

Lemma app_empty_r (s : string) : s +:+ "" = s.
Proof. induction s as [|c s IH]; [done|]. by rewrite app_cons_l, IH. Qed.

Lemma app_assoc_s (s1 s2 s3 : string) : (s1 +:+ s2) +:+ s3 = s1 +:+ s2 +:+ s3.
Proof. induction s1 as [|c s1 IH]; [done|]. by rewrite !app_cons_l, IH. Qed.

Lemma split_from_cons sep acc c s :
  split_from sep 0 acc (String c s)
  = if String.prefix sep (String c s)
    then acc :: split_from sep (String.length sep - 1) "" s
    else split_from sep 0 (acc +:+ String c "") s.
Proof. reflexivity. Qed.

Lemma prefix_other c s : c ≠ ","%char → String.prefix ", " (String c s) = false.
Proof.
  intros Hc. cbn [String.prefix]. by destruct (ascii_dec ","%char c).
Qed.

Lemma split_from_piece acc p :
  no_comma p → split_from ", " 0 acc p = [acc +:+ p].
Proof.
  unfold no_comma. revert acc. induction p as [|c p IH]; intros acc.
  - intros _. by rewrite app_empty_r.
  - cbn [has_comma]. intros [Hc Hp]%orb_false_elim. apply bool_decide_eq_false in Hc.
    rewrite split_from_cons, prefix_other by done.
    rewrite IH by done. by rewrite app_assoc_s, app_cons_l, app_nil_l.
Qed.

Lemma split_from_sep acc p rest :
  no_comma p →
  split_from ", " 0 acc (p +:+ ", " +:+ rest)
  = (acc +:+ p) :: split_from ", " 0 "" rest.
Proof.
  unfold no_comma. revert acc. induction p as [|c p IH]; intros acc.
  - intros _. rewrite app_empty_r.
    change ("" +:+ ", " +:+ rest) with (String "," (String " " rest)).
    rewrite split_from_cons. cbn. by destruct rest.
  - cbn [has_comma]. intros [Hc Hp]%orb_false_elim. apply bool_decide_eq_false in Hc.
    rewrite app_cons_l, split_from_cons, prefix_other by done.
    rewrite IH by done. by rewrite app_assoc_s, app_cons_l, app_nil_l.
Qed.

Lemma split_join (parts : list string) :
  parts ≠ [] → Forall no_comma parts → split ", " (join ", " parts) = parts.
Proof.
  intros Hne Hall. unfold split.
  induction Hall as [|p parts Hp Hall IH]; [done|].
  destruct parts as [|q parts].
  - simpl. by rewrite split_from_piece.
  - change (join ", " (p :: q :: parts)) with (p +:+ ", " +:+ join ", " (q :: parts)).
    rewrite split_from_sep by done. rewrite app_nil_l. f_equal. by apply IH.
Qed.

Lemma join_empty (parts : list string) :
  join ", " parts = "" → parts = [] ∨ parts = [""].
Proof.
  destruct parts as [|p [|q parts]]; simpl; [by left|intros ->; by right|].
  destruct p; [rewrite app_nil_l|]; rewrite app_cons_l; discriminate.
Qed.

Lemma or_else_empty (x : option string) : or_else x "" = default "" x.
Proof.
  unfold or_else, truthy. destruct x as [s|]; simpl; [|done].
  by destruct (String.eqb_spec s "") as [->|].
Qed.

Lemma or_else_nonempty (s d : string) : s ≠ "" → or_else (Some s) d = s.
Proof.
  intros Hs. unfold or_else, truthy. by destruct (String.eqb_spec s "").
Qed.

Lemma truthy_Some (s : string) : truthy (Some s) = true ↔ s ≠ "".
Proof. unfold truthy. destruct (String.eqb_spec s ""); naive_solver. Qed.

End Strings.

(** C5, as stated, fails in three ways: the row has no column for the year
    and the colour of the car; a list of parts that is just the empty
    string is written as the empty cell and read as no part; and
    [jobToRow] throws on a job whose [createdAt] is not a valid time. *)
Lemma row_roundtrip_counterexample :
  ¬ roundtrip_as_stated refHost RowExamples.withColour
  ∧ ¬ roundtrip_as_stated refHost RowExamples.emptyPart
  ∧ ¬ roundtrip_as_stated refHost RowExamples.untimed.
Proof.
  split_and!.
  - intros (r & Hr & Htext & _). vm_compute in Hr. injection Hr as <-.
    vm_compute in Htext. discriminate.
  - intros (r & Hr & _ & _ & _ & Hparts). vm_compute in Hr. injection Hr as <-.
    assert (Forall no_comma [""]) as Hall by (by repeat constructor).
    specialize (Hparts Hall). vm_compute in Hparts.
    by apply Permutation_nil_cons in Hparts.
  - intros (r & Hr & _). vm_compute in Hr. discriminate.
Qed.

(** C5 (amended).  Row round-trip: for a job of the declared types whose
    [createdAt] is a valid time, on a host whose [JSON.parse] reads ["[]"] as
    the empty array, [jobToRow] returns a row and [rowToJob] of that row has
    the [id], [status], [repairType] and [manualNotes] of the job, a car
    with the job's plate, make and model (empty texts when the job has no
    car) and neither year nor colour, no intake image and no damage images;
    its [identifiedParts] are those of the job, in the same order, whenever
    no part contains a comma and the parts are not just the empty string. *)
Theorem row_roundtrip (h : Host) (job : Job) :
  JSON_parse h "[]" = Ok (PArray []) →
  well_typed job →
  valid_time (createdAt job) = true →
  ∃ r, jobToRow h job = Ok r
       ∧ id (rowToJob h r) = id job
       ∧ status (rowToJob h r) = status job
       ∧ repairType (rowToJob h r) = repairType job
       ∧ manualNotes (rowToJob h r) = manualNotes job
       ∧ carDetails (rowToJob h r)
         = Value (mkCar (carText plate job) (carText make job) (carText model job) None None)
       ∧ intakeImage (rowToJob h r) = Undefined
       ∧ damageImages (rowToJob h r) = Value []
       ∧ (Forall no_comma (identifiedParts job) → identifiedParts job ≠ [""] →
          identifiedParts (rowToJob h r) = identifiedParts job).
Proof.
  intros Hjson [Hstatus Hrepair] Hvalid. unfold jobToRow.
  destruct (createdAt job) as [t|] eqn:Ht; [|done]. rewrite Hvalid.
  eexists. split; [reflexivity|].
  unfold rowToJob, at_, parseImageCells. simpl.
  rewrite !or_else_empty. simpl.
  change (or_else (Some "[]") "[]") with "[]". rewrite Hjson.
  assert (status job ≠ "") as Hs.
  { intros He. rewrite He in Hstatus. vm_compute in Hstatus.
    repeat (apply elem_of_cons in Hstatus as [Hstatus|Hstatus]; [discriminate|]).
    by apply elem_of_nil in Hstatus. }
  assert (repairType job ≠ "") as Hrt.
  { intros He. rewrite He in Hrepair. vm_compute in Hrepair.
    repeat (apply elem_of_cons in Hrepair as [Hrepair|Hrepair]; [discriminate|]).
    by apply elem_of_nil in Hrepair. }
  rewrite (or_else_nonempty (status job)), (or_else_nonempty (repairType job)) by done.
  split_and!; try done.
  intros Hall Hne. simpl.
  destruct (String.eqb_spec (join ", " (identifiedParts job)) "") as [He|He]; simpl.
  - apply join_empty in He as [He|He]; [by rewrite He|by destruct Hne].
  - apply split_join; [|done]. intros Hnil. by rewrite Hnil in He.
Qed.

Lemma row_roundtrip_witness :
  (JSON_parse refHost "[]" = Ok (PArray [])
   ∧ well_typed RowExamples.plain
   ∧ valid_time (createdAt RowExamples.plain) = true)
  ∧ ∃ r, jobToRow refHost RowExamples.plain = Ok r
         ∧ manualNotes (rowToJob refHost r) = "x"
         ∧ damageImages (rowToJob refHost r) = Value []
         ∧ identifiedParts (rowToJob refHost r) = ["capo"; "puerta"].
Proof.
  assert (well_typed RowExamples.plain) as Hwt.
  { split; [right; by left|by left]. }
  split; [split_and!; [reflexivity|exact Hwt|reflexivity]|].
  destruct (row_roundtrip refHost RowExamples.plain eq_refl Hwt eq_refl)
    as (r & Hr & _ & _ & _ & Hnotes & _ & _ & Himgs & Hparts).
  exists r. split_and!; [done..|].
  apply Hparts; [|discriminate]. by repeat constructor.
Defined.

(** What [rowToJob] does put in for cells that are missing or empty. *)
Lemma rowToJob_defaults (h : Host) (r : row) :
  (∀ i, (i < 11)%nat → at_ r i = None ∨ at_ r i = Some "") →
  JSON_parse h "[]" = Ok (PArray []) →
  rowToJob h r
  = {| id := ""; createdAt := Date_parse h (toISOString h (now h));
       status := JobStatus.INTAKE;
       carDetails := Value (mkCar "" "" "" None None);
       intakeImage := Undefined; damageImages := Value [];
       identifiedParts := []; manualNotes := ""; repairType := "AMBOS" |}.
Proof.
  intros Hcells Hjson. unfold rowToJob, parseImageCells.
  assert (∀ i d, (i < 11)%nat → or_else (at_ r i) d = d) as Hd.
  { intros i d Hi. by destruct (Hcells i Hi) as [-> | ->]. }
  rewrite !Hd by lia. by rewrite Hjson.
Qed.

(** C6, at the failing input: a date cell that is there but does not parse
    gives [createdAt = NaN], not the current time. *)
Lemma soft_failure_unparsable_date :
  createdAt (rowToJob refHost Examples.rowBadDate) = NaN
  ∧ createdAt (rowToJob refHost Examples.rowBadDate) ≠ Num (now refHost)
  ∧ status (rowToJob refHost Examples.rowBadDate) = JobStatus.INTAKE
  ∧ identifiedParts (rowToJob refHost Examples.rowBadDate) = [].
Proof. by vm_compute. Qed.

(** * Properties of the orchestrators *)

Section Orchestrators.
Context {W : Type} (b : Backend W) (h : Host).

Lemma saveStep_foldl (jobs : list Job) (batch : list batchOp) (opCount : Z) :
  foldl (saveStep h) (batch, opCount) jobs
  = (batch ++ (payload h <$> jobs), opCount + Z.of_nat (length jobs)).
Proof.
  revert batch opCount. induction jobs as [|j jobs IH]; intros batch opCount; csimpl.
  - f_equal; [by rewrite app_nil_r|lia].
  - rewrite IH. f_equal; [by rewrite <- app_assoc|lia].
Qed.

Lemma syncWithFirebase_unconfigured localJobs settings :
  firebaseConfigured settings = false →
  syncWithFirebase h localJobs settings
  = Fail (Error "Configuración de Firebase incompleta.").
Proof.
  unfold firebaseConfigured, syncWithFirebase.
  destruct (firebaseConfig settings) as [config|]; [|done].
  by intros ->.
Qed.

Lemma syncWithGoogleSheets_unconfigured localJobs settings :
  sheetsConfigured settings = false →
  syncWithGoogleSheets h localJobs settings = Fail (Error "Configuración incompleta").
Proof.
  unfold sheetsConfigured, syncWithGoogleSheets.
  intros Hc. rewrite <- negb_andb, Hc. done.
Qed.

(** The run of [syncWithFirebase] once the settings are there and the
    remote collection was read. *)
Lemma run_syncWithFirebase localJobs settings config remoteJobs (w w1 : W) :
  firebaseConfig settings = Some config → apiKey config ≠ "" →
  onGetDocs b config w = (Ok remoteJobs, w1) →
  let mergedJobs := mergeFirebase localJobs remoteJobs in
  let batch := payload h <$> take 450 mergedJobs in
  run b (syncWithFirebase h localJobs settings) w
  = match mergedJobs with
    | [] => mkOutcome (Ok mergedJobs) [EvGetDocs config] w1
    | _ :: _ =>
        mkOutcome
          (match (onCommit b config batch w1).1 with
           | Ok _ => Ok mergedJobs
           | Throw e => Throw e
           end)
          [EvGetDocs config; EvCommit config batch]
          (onCommit b config batch w1).2
    end.
Proof.
  intros Hc Hkey Hdocs. unfold syncWithFirebase. rewrite Hc.
  apply truthy_Some in Hkey. rewrite Hkey. simpl.
  rewrite Hdocs. simpl. rewrite saveStep_foldl. simpl.
  destruct (mergeFirebase localJobs remoteJobs) as [|j js] eqn:Hm; [done|].
  assert ((0 <? 0 + Z.of_nat (length (take 450 (j :: js)))) = true) as ->.
  { apply Z.ltb_lt. simpl. lia. }
  simpl. destruct (onCommit b config _ w1) as [[[]|e] w2]; done.
Qed.

End Orchestrators.

(** C7.  Batch cap: once the settings are there and the remote collection
    was read, [syncWithFirebase] puts in the batch one write per job of the
    first 450 jobs of the sorted merged list, in that order (so at most 450
    writes, and nothing of the tail), commits it in one call, and when the
    commit succeeds (or the merged list is empty and there is nothing to
    commit) returns the whole merged list. *)
Theorem batch_cap {W : Type} (b : Backend W) (h : Host)
    (localJobs remoteJobs : list Job) (settings : AppSettings) (config : FirebaseConfig)
    (w w1 : W) :
  firebaseConfig settings = Some config → apiKey config ≠ "" →
  onGetDocs b config w = (Ok remoteJobs, w1) →
  let mergedJobs := mergeFirebase localJobs remoteJobs in
  let batch := payload h <$> take 450 mergedJobs in
  let o := run b (syncWithFirebase h localJobs settings) w in
  (length batch ≤ 450)%nat
  ∧ batch.*1 = take 450 (id <$> mergedJobs)
  ∧ (mergedJobs = [] → returned o = Ok [] ∧ trace o = [EvGetDocs config])
  ∧ (mergedJobs ≠ [] →
     trace o = [EvGetDocs config; EvCommit config batch]
     ∧ ∀ w2, onCommit b config batch w1 = (Ok (), w2) → returned o = Ok mergedJobs).
Proof.
  intros Hc Hkey Hdocs mergedJobs batch o.
  assert (o = _) as Ho by exact (run_syncWithFirebase b h _ _ _ _ _ _ Hc Hkey Hdocs).
  fold mergedJobs batch in Ho. split_and!.
  - unfold batch. rewrite length_fmap, length_take. lia.
  - unfold batch. rewrite <- list_fmap_compose, fmap_take. done.
  - intros He. rewrite Ho, He. done.
  - intros Hne. rewrite Ho. destruct mergedJobs as [|j js]; [done|]. simpl.
    split; [done|]. by intros w2 ->.
Qed.

Lemma batch_cap_witness :
  let b := SyncExamples.store [Examples.remoteA] in
  let localJobs := [Examples.localA; SyncExamples.localB] in
  (firebaseConfig SyncExamples.withFirebase = Some SyncExamples.config
   ∧ apiKey SyncExamples.config ≠ ""
   ∧ onGetDocs b SyncExamples.config [] = (Ok [Examples.remoteA], []))
  ∧ (id <$> mergeFirebase localJobs [Examples.remoteA]) = ["B"; "A"]
  ∧ returned (run b (syncWithFirebase refHost localJobs SyncExamples.withFirebase) [])
    = Ok (mergeFirebase localJobs [Examples.remoteA]).
Proof.
  cbv zeta.
  assert (apiKey SyncExamples.config ≠ "") as Hkey by discriminate.
  split; [by split_and!|]. split; [by vm_compute|].
  destruct (batch_cap (SyncExamples.store [Examples.remoteA]) refHost
              [Examples.localA; SyncExamples.localB] [Examples.remoteA]
              SyncExamples.withFirebase SyncExamples.config [] [] eq_refl Hkey eq_refl)
    as (_ & _ & _ & Hrun).
  destruct Hrun as [_ Hret]; [by vm_compute|].
  by apply (Hret _ eq_refl).
Defined.

(** C8.  Config fail-fast: when the settings lack what an orchestrator
    asks for (the Firebase configuration with its API key; the sheet id and
    the access token), its run throws the configuration error, makes no
    call to the backend and leaves the backend as it was; no list is
    returned in place of the caller's. *)
Theorem config_fail_fast {W : Type} (b : Backend W) (h : Host)
    (localJobs : list Job) (settings : AppSettings) (w : W) :
  (firebaseConfigured settings = false →
   run b (syncWithFirebase h localJobs settings) w
   = mkOutcome (Throw (Error "Configuración de Firebase incompleta.")) [] w)
  ∧ (sheetsConfigured settings = false →
     run b (syncWithGoogleSheets h localJobs settings) w
     = mkOutcome (Throw (Error "Configuración incompleta")) [] w).
Proof.
  split; intros Hc.
  - by rewrite syncWithFirebase_unconfigured.
  - by rewrite syncWithGoogleSheets_unconfigured.
Qed.

Lemma config_fail_fast_witness :
  let b := SyncExamples.store [Examples.remoteA] in
  (firebaseConfigured SyncExamples.withNothing = false
   ∧ sheetsConfigured SyncExamples.withFirebase = false)
  ∧ trace (run b (syncWithFirebase refHost [Examples.localA] SyncExamples.withNothing) []) = []
  ∧ returned (run b (syncWithGoogleSheets refHost [Examples.localA] SyncExamples.withFirebase) [])
    = Throw (Error "Configuración incompleta").
Proof.
  cbv zeta. split; [done|].
  destruct (config_fail_fast (SyncExamples.store [Examples.remoteA]) refHost
              [Examples.localA] SyncExamples.withNothing []) as [H1 _].
  destruct (config_fail_fast (SyncExamples.store [Examples.remoteA]) refHost
              [Examples.localA] SyncExamples.withFirebase []) as [_ H2].
  rewrite H1, H2 by done. done.
Defined.

(** * The image normaliser *)

Section Normaliser.

Lemma Math_round_div_spec (p q : Z) :
  0 < q → 2 * Z.abs (Math_round_div p q * q - p) ≤ q.
Proof.
  intros Hq. unfold Math_round_div.
  pose proof (Z.div_mod (2 * p + q) (2 * q) ltac:(lia)) as Hdm.
  pose proof (Z.mod_pos_bound (2 * p + q) (2 * q) ltac:(lia)) as Hb.
  nia.
Qed.

Lemma Math_round_div_le (hgt m wd : Z) :
  0 ≤ hgt → 0 < m → m < wd → Math_round_div (hgt * m) wd ≤ hgt.
Proof.
  intros Hh Hm Hw. unfold Math_round_div.
  apply Z.lt_succ_r. apply Z.div_lt_upper_bound; [lia|]. nia.
Qed.

Lemma Math_round_div_nonneg (p q : Z) : 0 ≤ p → 0 < q → 0 ≤ Math_round_div p q.
Proof. intros Hp Hq. unfold Math_round_div. apply Z.div_pos; lia. Qed.

End Normaliser.

(** C9.  Normaliser no-upscale: the canvas [compressImage] draws on and
    encodes has the size of the picture when the picture is not wider than
    the maximum width; when it is wider, the canvas has the maximum width
    and the height [Math.round(height * maxWidth / width)], which is the
    proportional height to within half a pixel and not more than the
    height of the picture. *)
Theorem normalizer_no_upscale (h : Host) (base64 : string) (img : Image)
    (maxWidth quality : Z) :
  loadImage h base64 = Some img →
  (width img ≤ maxWidth →
   canvasSize img maxWidth = (width img, height img))
  ∧ (0 < maxWidth → maxWidth < width img → 0 ≤ height img →
     ∃ ht, canvasSize img maxWidth = (maxWidth, ht)
           ∧ 2 * Z.abs (ht * width img - height img * maxWidth) ≤ width img
           ∧ 0 ≤ ht ≤ height img)
  ∧ (getContext2d h (canvasSize img maxWidth).1 (canvasSize img maxWidth).2 = true →
     compressImage h base64 maxWidth quality
     = toDataURL_payload h base64
         (canvasSize img maxWidth).1 (canvasSize img maxWidth).2 quality).
Proof.
  intros Hload. unfold canvasSize. split_and!.
  - intros Hle. by rewrite (proj2 (Z.ltb_ge _ _) Hle).
  - intros Hm Hlt Hh. rewrite (proj2 (Z.ltb_lt _ _) Hlt).
    eexists. split; [reflexivity|]. split_and!.
    + apply Math_round_div_spec. lia.
    + apply Math_round_div_nonneg; lia.
    + by apply Math_round_div_le.
  - unfold compressImage. rewrite Hload. unfold canvasSize.
    destruct (maxWidth <? width img); simpl; by intros ->.
Qed.

Lemma normalizer_no_upscale_witness :
  loadImage refHost "aW1n" = Some (mkImage 1600 1200)
  ∧ canvasSize (mkImage 1600 1200) 800 = (800, 600)
  ∧ canvasSize (mkImage 1600 1200) 2000 = (1600, 1200)
  ∧ compressImage refHost "aW1n" 800 60 = "0800x0600q60:aW1n".
Proof.
  destruct (normalizer_no_upscale refHost "aW1n" (mkImage 1600 1200) 800 60 eq_refl)
    as (_ & Hwide & Hrun).
  destruct (normalizer_no_upscale refHost "aW1n" (mkImage 1600 1200) 2000 60 eq_refl)
    as (Hnarrow & _ & _).
  split; [reflexivity|]. split_and!.
  - reflexivity.
  - apply Hnarrow. simpl. lia.
  - rewrite Hrun by reflexivity. reflexivity.
Defined.

(** * The write phase leaves the merged jobs alone *)

Section StoreFacts.
Implicit Types (h : Store.heap) (r : Store.loc).

#[global] Instance extends_refl : Reflexive extends.
Proof. by intros h. Qed.

#[global] Instance extends_trans : Transitive extends.
Proof. intros h1 h2 h3 [? ?] [? ?]. split; by etrans. Qed.

Lemma fresh_obj h : Store.objs h !! fresh (dom (Store.objs h)) = None.
Proof. apply not_elem_of_dom, is_fresh. Qed.

Lemma fresh_arr h : Store.arrs h !! fresh (dom (Store.arrs h)) = None.
Proof. apply not_elem_of_dom, is_fresh. Qed.

Lemma deref_extends h h' a imgs :
  extends h h' → Store.deref h a = Some imgs → Store.deref h' a = Some imgs.
Proof.
  intros [_ Harr]. destruct a as [| |l]; simpl; [done..|].
  destruct (Store.arrs h !! l) as [x|] eqn:Hl; [|done].
  by rewrite (lookup_weaken _ _ _ _ Hl Harr).
Qed.

Lemma view_extends h h' r j :
  extends h h' → Store.view h r = Some j → Store.view h' r = Some j.
Proof.
  intros Hext. unfold Store.view.
  destruct (Store.objs h !! r) as [o|] eqn:Ho; [|done]. simpl.
  rewrite (lookup_weaken _ _ _ _ Ho (proj1 Hext)). simpl.
  destruct (Store.deref h (Store.o_damageImages o)) as [imgs|] eqn:Hd; [|done].
  by rewrite (deref_extends _ _ _ _ Hext Hd).
Qed.

Lemma heap_eta h : Store.mkHeap (Store.objs h) (Store.arrs h) = h.
Proof. by destruct h. Qed.

Lemma compressIntake_spec host h l o :
  Store.objs h !! l = Some o →
  Store.compressIntake host l h
  = Some ((), Store.mkHeap (<[l := intakeDone host o]> (Store.objs h)) (Store.arrs h)).
Proof.
  intros Ho. unfold Store.compressIntake, intakeDone, mbind, Store.heapM_bind,
    Store.get_obj, Store.assign, mret, Store.heapM_ret.
  rewrite Ho. simpl.
  destruct (read (Store.o_intakeImage o)) as [img|]; [destruct (String.eqb img "")|];
    simpl; rewrite ?Ho; simpl; rewrite ?insert_id by done; by rewrite ?heap_eta.
Qed.

Lemma compressDamage_spec host h l o imgs :
  Store.objs h !! l = Some o →
  Store.deref h (Store.o_damageImages o) = Some imgs →
  ∃ h' o',
    Store.compressDamage host l h = Some ((), h')
    ∧ Store.objs h' = <[l := o']> (Store.objs h)
    ∧ Store.arrs h ⊆ Store.arrs h'
    ∧ Store.with_damageImages o' (Store.o_damageImages o) = o
    ∧ Store.deref h' (Store.o_damageImages o')
      = Some (if nonempty_images (read imgs)
              then Value (compressImage_default host <$> default [] (read imgs))
              else imgs).
Proof.
  intros Ho Hd. unfold Store.compressDamage, mbind, Store.heapM_bind,
    Store.get_obj, Store.get_arr, Store.alloc_arr, Store.assign, mret, Store.heapM_ret.
  rewrite Ho. simpl.
  assert (Store.with_damageImages o (Store.o_damageImages o) = o) as Hsame by (by destruct o).
  destruct (Store.o_damageImages o) as [| |a] eqn:Ha; simpl in *.
  - injection Hd as <-. exists h, o. rewrite insert_id by done. by rewrite Ha.
  - injection Hd as <-. exists h, o. rewrite insert_id by done. by rewrite Ha.
  - destruct (Store.arrs h !! a) as [lst|] eqn:Harr; [|done]. injection Hd as <-. simpl.
    destruct lst as [|x lst]; simpl.
    + exists h, o. rewrite insert_id by done. rewrite Ha. simpl. by rewrite Harr.
    + rewrite Ho. simpl. eexists _, _. split; [reflexivity|]. simpl.
      split_and!; [done| |by destruct o; simpl in *; subst|by simpl; rewrite lookup_insert_eq].
      apply insert_subseteq, fresh_arr.
Qed.

Lemma bind_Some {A B} (m : Store.heapM A) (f : A → Store.heapM B) h a h' :
  m h = Some (a, h') → (m ≫= f) h = f a h'.
Proof. unfold mbind, Store.heapM_bind. by intros ->. Qed.

Lemma get_obj_Some h r o : Store.objs h !! r = Some o → Store.get_obj r h = Some (o, h).
Proof. unfold Store.get_obj. by intros ->. Qed.

(** [Store.prepareJobForCloud] allocates the copy and works on it: it
    returns a reference to what the function on values computes, and keeps
    what was in the store. *)
Lemma prepareJobForCloud_spec host h job j :
  Store.view h job = Some j →
  ∃ dataToSave h',
    Store.prepareJobForCloud host job h = Some (dataToSave, h')
    ∧ extends h h'
    ∧ Store.view h' dataToSave = Some (prepareJobForCloud host j).
Proof.
  unfold Store.view. intros Hv.
  destruct (Store.objs h !! job) as [o|] eqn:Ho; [|done]. simpl in Hv.
  destruct (Store.deref h (Store.o_damageImages o)) as [imgs|] eqn:Hd; [|done].
  injection Hv as <-.
  pose proof (fresh_obj h) as Hfresh. set (l := fresh (dom (Store.objs h))) in *.
  set (h2 := Store.mkHeap (<[l:=intakeDone host o]> (Store.objs h)) (Store.arrs h)).
  assert (Store.o_damageImages (intakeDone host o) = Store.o_damageImages o) as Hdmg.
  { unfold intakeDone. destruct (read (Store.o_intakeImage o)) as [img|]; [|done].
    by destruct (truthy (Some img)). }
  destruct (compressDamage_spec host h2 l (intakeDone host o) imgs)
    as (h3 & o3 & Hrun & Hobjs & Harrs & Ho3 & Hd3).
  { apply lookup_insert_eq. }
  { by rewrite Hdmg. }
  exists l, h3. split_and!.
  - unfold Store.prepareJobForCloud.
    rewrite (bind_Some _ _ h o h) by by apply get_obj_Some.
    rewrite (bind_Some _ _ h l (Store.mkHeap (<[l:=o]> (Store.objs h)) (Store.arrs h)))
      by done.
    erewrite bind_Some; [|apply compressIntake_spec, lookup_insert_eq].
    simpl. rewrite insert_insert_eq. fold h2.
    by erewrite bind_Some; [|exact Hrun].
  - split; [|done]. rewrite Hobjs. simpl. rewrite insert_insert_eq.
    by apply insert_subseteq.
  - rewrite Hobjs. simpl. rewrite lookup_insert_eq. simpl. rewrite Hd3. simpl.
    f_equal. rewrite Hdmg in Ho3. clear -Ho3.
    unfold prepareJobForCloud, intakeDone in *.
    destruct o3 as [? ? ? ? i ? ? ? ?]. destruct o as [? ? ? ? oi od ? ? ?].
    unfold Store.with_damageImages, Store.with_intakeImage in Ho3.
    destruct oi as [| |img]; simpl in *; [| |destruct (String.eqb img "")];
      injection Ho3; intros; subst; by destruct imgs as [| |[|x lst]].
Qed.

(** The loop computes the batch of the function on values and keeps the
    store. *)
Lemma saveLoop_spec host (refs : list Store.loc) (jobs : list Job) st h :
  Forall2 (λ r j, Store.view h r = Some j) refs jobs →
  ∃ h', Store.saveLoop host refs st h = Some (foldl (saveStep host) st jobs, h')
        ∧ extends h h'.
Proof.
  intros Hall. revert jobs st h Hall.
  induction refs as [|r refs IH]; intros jobs st h Hall.
  - apply Forall2_nil_inv_l in Hall as ->. by exists h.
  - apply Forall2_cons_inv_l in Hall as (j & jobs' & Hj & Hall & ->).
    destruct (prepareJobForCloud_spec host h r j Hj) as (d & h1 & Hprep & Hext & Hview).
    assert (∃ o, Store.objs h !! r = Some o ∧ Store.o_id o = id j) as (o & Ho & Hid).
    { unfold Store.view in Hj. destruct (Store.objs h !! r) as [o|]; [|done].
      exists o. split; [done|]. simpl in Hj.
      destruct (Store.deref h (Store.o_damageImages o)); by simplify_eq/=. }
    destruct (IH jobs' (st.1 ++ [(id j, cleanData (prepareJobForCloud host j))], st.2 + 1) h1)
      as (h2 & Hloop & Hext2).
    { eapply Forall2_impl; [exact Hall|]. intros r' j' Hv. by eapply view_extends. }
    exists h2. split; [|by etrans].
    cbn [Store.saveLoop].
    rewrite (bind_Some _ _ h o h) by by apply get_obj_Some.
    rewrite (bind_Some _ _ h d h1) by done.
    rewrite (bind_Some _ _ h1 (prepareJobForCloud host j) h1)
      by (unfold Store.get_view; by rewrite Hview).
    rewrite Hid, Hloop. by destruct st.
Qed.

End StoreFacts.

(** C10.  The returned list is the merged list, untouched by the write
    phase.  On values, a run of [syncWithFirebase] that read the remote
    collection and got its batch committed returns the merge itself.  On the
    store, where [mergedJobs] is an array of references to job objects that
    may share their image arrays with anything: the write phase runs to its
    end, returns the same array of references, builds the batch that the
    function on values builds, where the pictures are the compressed ones,
    and every object and array that existed before is unchanged, so each
    returned reference still stands for the same job, with the same
    [intakeImage] and [damageImages]. *)
Theorem returned_list_unaffected {W : Type} (b : Backend W) (host : Host)
    (localJobs remoteJobs : list Job) (settings : AppSettings) (config : FirebaseConfig)
    (w w1 w2 : W) (h : Store.heap) (refs : list Store.loc) :
  firebaseConfig settings = Some config → apiKey config ≠ "" →
  onGetDocs b config w = (Ok remoteJobs, w1) →
  let mergedJobs := mergeFirebase localJobs remoteJobs in
  onCommit b config (payload host <$> take 450 mergedJobs) w1 = (Ok (), w2) →
  Forall2 (λ r j, Store.view h r = Some j) refs mergedJobs →
  returned (run b (syncWithFirebase host localJobs settings) w) = Ok mergedJobs
  ∧ ∃ h' opCount,
      Store.writePhase host refs h
      = Some ((payload host <$> take 450 mergedJobs, opCount, refs), h')
      ∧ extends h h'
      ∧ Forall2 (λ r j, Store.view h' r = Some j) refs mergedJobs.
Proof.
  intros Hc Hkey Hdocs mergedJobs Hcommit Hrefs.
  pose proof (run_syncWithFirebase b host localJobs _ _ _ _ _ Hc Hkey Hdocs) as Hrun.
  cbv zeta in Hrun. fold mergedJobs in Hrun. clearbody mergedJobs. split.
  - rewrite Hrun. destruct mergedJobs; [done|]. by rewrite Hcommit.
  - clear Hrun. destruct (saveLoop_spec host (take 450 refs) (take 450 mergedJobs) ([], 0) h)
      as (h' & Hloop & Hext).
    { by apply Forall2_take. }
    rewrite saveStep_foldl in Hloop. simpl in Hloop.
    exists h', (Z.of_nat (length (take 450 mergedJobs))). split_and!.
    + unfold Store.writePhase. by rewrite (bind_Some _ _ _ _ _ Hloop).
    + done.
    + eapply Forall2_impl; [exact Hrefs|]. intros r j Hv. by eapply view_extends.
Qed.

Lemma returned_list_unaffected_witness :
  let b := SyncExamples.store [] in
  let localJobs := [StoreExamples.mergedJob] in
  (firebaseConfig SyncExamples.withFirebase = Some SyncExamples.config
   ∧ apiKey SyncExamples.config ≠ ""
   ∧ mergeFirebase localJobs [] = [StoreExamples.mergedJob]
   ∧ Store.view StoreExamples.heap0 1%positive = Some StoreExamples.mergedJob)
  ∧ returned (run b (syncWithFirebase refHost localJobs SyncExamples.withFirebase) [])
    = Ok [StoreExamples.mergedJob]
  ∧ ∃ h' ops,
      Store.writePhase refHost [1%positive] StoreExamples.heap0 = Some (ops, h')
      ∧ Store.view h' 1%positive = Some StoreExamples.mergedJob.
Proof.
  cbv zeta.
  assert (apiKey SyncExamples.config ≠ "") as Hkey by discriminate.
  assert (mergeFirebase [StoreExamples.mergedJob] [] = [StoreExamples.mergedJob])
    as Hm by (by vm_compute).
  assert (Store.view StoreExamples.heap0 1%positive = Some StoreExamples.mergedJob)
    as Hv by (by vm_compute).
  split; [by split_and!|].
  destruct (returned_list_unaffected (SyncExamples.store []) refHost
              [StoreExamples.mergedJob] [] SyncExamples.withFirebase SyncExamples.config
              [] [] (payload refHost <$> take 450 (mergeFirebase [StoreExamples.mergedJob] []))
              StoreExamples.heap0 [1%positive] eq_refl Hkey eq_refl eq_refl)
    as (Hret & h' & n & Hrun & _ & Hviews).
  { rewrite Hm. by repeat constructor. }
  rewrite Hm in Hret, Hviews. split; [exact Hret|].
  exists h', (payload refHost <$> take 450 (mergeFirebase [StoreExamples.mergedJob] []), n,
              [1%positive]).
  split; [exact Hrun|]. by apply Forall2_cons_1 in Hviews as [? _].
Defined.

(** * Further properties of the merge engine *)

Section MergeMore.
Implicit Types (m : jobMap) (k : string) (v j l r : Job).

Lemma map_set_fresh k v m : k ∉ map_keys m → map_set k v m = m ++ [(k, v)].
Proof.
  unfold map_keys. induction m as [|[k' v'] m IH]; csimpl; [done|].
  intros [? ?]%not_elem_of_cons. rewrite decide_False by done. by rewrite IH.
Qed.

Lemma map_get_fresh k m : k ∉ map_keys m → map_get k m = None.
Proof.
  unfold map_keys. induction m as [|[k' v'] m IH]; csimpl; [done|].
  intros [? ?]%not_elem_of_cons. rewrite decide_False by done. by apply IH.
Qed.

Lemma map_keys_app m1 m2 : map_keys (m1 ++ m2) = map_keys m1 ++ map_keys m2.
Proof. unfold map_keys. apply fmap_app. Qed.

Lemma map_keys_entries (js : list Job) : map_keys (entry <$> js) = id <$> js.
Proof. unfold map_keys. rewrite <- list_fmap_compose. done. Qed.

Lemma map_values_entries (js : list Job) : map_values (entry <$> js) = js.
Proof.
  unfold map_values. rewrite <- list_fmap_compose. induction js; csimpl; by f_equal.
Qed.

(** Jobs with new, distinct ids go to the end of the map, one by one. *)
Lemma seed_fresh m (js : list Job) :
  NoDup (id <$> js) → (∀ k, k ∈ id <$> js → k ∉ map_keys m) →
  foldl seedStep m js = m ++ (entry <$> js).
Proof.
  revert m. induction js as [|j js IH]; intros m Hnd Hfresh; csimpl.
  - by rewrite app_nil_r.
  - apply NoDup_cons in Hnd as [Hj Hnd].
    unfold seedStep at 2. rewrite map_set_fresh by (apply Hfresh; by left).
    rewrite IH; [by rewrite <- app_assoc|done|].
    intros k Hk. rewrite map_keys_app. csimpl.
    intros [?|?%list_elem_of_singleton]%elem_of_app.
    + by apply (Hfresh k); [right|].
    + by subst.
Qed.

Lemma overlay_fresh m (js : list Job) :
  NoDup (id <$> js) → (∀ k, k ∈ id <$> js → k ∉ map_keys m) →
  foldl overlayLocal m js = m ++ (entry <$> js).
Proof.
  revert m. induction js as [|j js IH]; intros m Hnd Hfresh; csimpl.
  - by rewrite app_nil_r.
  - apply NoDup_cons in Hnd as [Hj Hnd].
    unfold overlayLocal at 2.
    rewrite map_get_fresh, map_set_fresh by (apply Hfresh; by left).
    rewrite IH; [by rewrite <- app_assoc|done|].
    intros k Hk. rewrite map_keys_app. csimpl.
    intros [?|?%list_elem_of_singleton]%elem_of_app.
    + by apply (Hfresh k); [right|].
    + by subst.
Qed.

Lemma sort_insert_stamped t a (js : list Job) :
  stamped t (sort_insert a js) = stamped t (a :: js).
Proof.
  unfold stamped. induction js as [|b js IH]; simpl; [done|].
  destruct (positive_cmp (comparator a b)) eqn:Hcmp; [|done].
  assert (createdAt a ≠ createdAt b) as Hne.
  { unfold comparator in Hcmp. destruct (createdAt a), (createdAt b); simpl in *; try done.
    apply Z.ltb_lt in Hcmp. intros [= ->]. lia. }
  rewrite (filter_cons _ b), IH, !filter_cons.
  repeat case_decide; congruence.
Qed.

Lemma sort_stamped t (js : list Job) :
  stamped t (sortByCreatedAtDesc js) = stamped t js.
Proof.
  induction js as [|a js IH]; simpl; [done|].
  rewrite sort_insert_stamped. unfold stamped in *. by rewrite !filter_cons, IH.
Qed.

End MergeMore.

(** X1.  Whatever duplicates the two lists have, the merged list of either
    orchestrator has one job per id: its ids are distinct, and its length
    is the number of distinct ids of the inputs (of the non-empty ones for
    the spreadsheet orchestrator). *)
Theorem merged_ids_unique (localJobs remoteJobs : list Job) :
  NoDup (id <$> mergeFirebase localJobs remoteJobs)
  ∧ NoDup (id <$> mergeSheets localJobs remoteJobs)
  ∧ length (mergeFirebase localJobs remoteJobs) = size (ids localJobs ∪ ids remoteJobs)
  ∧ length (mergeSheets localJobs remoteJobs)
    = size ((ids localJobs ∪ ids remoteJobs) ∖ {[""]}).
Proof.
  assert (∀ l r, length (mergeFirebase l r) = size (ids (mergeFirebase l r))) as Hlen.
  { intros l r. unfold ids. rewrite size_list_to_set by apply NoDup_ids_mergeFirebase.
    by rewrite length_fmap. }
  split_and!.
  - apply NoDup_ids_mergeFirebase.
  - rewrite mergeSheets_filter. apply NoDup_ids_mergeFirebase.
  - by rewrite Hlen, ids_mergeFirebase.
  - rewrite mergeSheets_filter, Hlen, ids_mergeFirebase, !ids_filter_has_id.
    f_equal. set_solver.
Qed.

(** X2.  A job that only the local list has is kept as it is: with distinct
    local ids, a local job whose id no remote job has is an element of the
    merged list (for the spreadsheet orchestrator, when its id is not
    empty). *)
Theorem local_only_kept (localJobs remoteJobs : list Job) (l : Job) :
  NoDup (id <$> localJobs) → l ∈ localJobs → id l ∉ id <$> remoteJobs →
  l ∈ mergeFirebase localJobs remoteJobs
  ∧ (id l ≠ "" → l ∈ mergeSheets localJobs remoteJobs).
Proof.
  assert (∀ ls rs, NoDup (id <$> ls) → l ∈ ls → id l ∉ id <$> rs →
                   l ∈ mergeFirebase ls rs) as Hfb.
  { intros ls rs Hnd Hin Hnot. apply elem_of_mergeFirebase. unfold mergedMap.
    rewrite get_foldl_overlayLocal by done.
    by rewrite seedFirebase_fold, get_seedStep_other. }
  intros Hnd Hin Hnot. split; [by apply Hfb|].
  intros Hne. rewrite mergeSheets_filter. apply Hfb.
  - by apply NoDup_ids_filter.
  - apply list_elem_of_filter. split; [by apply has_id_spec|done].
  - intros (j & Hj & [_ Hjin]%list_elem_of_filter)%list_elem_of_fmap.
    apply Hnot. rewrite Hj. by apply list_elem_of_fmap_2.
Qed.

Lemma local_only_kept_witness :
  let localJobs := [Examples.localA; SyncExamples.localB] in
  let remoteJobs := [Examples.remoteA] in
  (NoDup (id <$> localJobs) ∧ SyncExamples.localB ∈ localJobs
   ∧ id SyncExamples.localB ∉ id <$> remoteJobs)
  ∧ SyncExamples.localB ∈ mergeFirebase localJobs remoteJobs.
Proof.
  cbv zeta.
  assert (NoDup (id <$> [Examples.localA; SyncExamples.localB])) as H1.
  { apply NoDup_cons. split; [by intros ?%list_elem_of_singleton|apply NoDup_singleton]. }
  assert (SyncExamples.localB ∈ [Examples.localA; SyncExamples.localB]) as H2
    by (right; by left).
  assert (id SyncExamples.localB ∉ id <$> [Examples.remoteA]) as H3
    by (by intros ?%list_elem_of_singleton).
  split; [done|].
  exact (proj1 (local_only_kept _ _ _ H1 H2 H3)).
Defined.

(** X3.  A job that only the remote list has is kept as it is: with
    distinct remote ids, a remote job whose id no local job has is an
    element of the merged list (for the spreadsheet orchestrator, when its
    id is not empty). *)
Theorem remote_only_kept (localJobs remoteJobs : list Job) (r : Job) :
  NoDup (id <$> remoteJobs) → r ∈ remoteJobs → id r ∉ id <$> localJobs →
  r ∈ mergeFirebase localJobs remoteJobs
  ∧ (id r ≠ "" → r ∈ mergeSheets localJobs remoteJobs).
Proof.
  assert (∀ ls rs, NoDup (id <$> rs) → r ∈ rs → id r ∉ id <$> ls →
                   r ∈ mergeFirebase ls rs) as Hfb.
  { intros ls rs Hnd Hin Hnot. apply elem_of_mergeFirebase. unfold mergedMap.
    rewrite get_foldl_overlayLocal_other by done.
    by rewrite seedFirebase_fold, get_seedStep. }
  intros Hnd Hin Hnot. split; [by apply Hfb|].
  intros Hne. rewrite mergeSheets_filter. apply Hfb.
  - by apply NoDup_ids_filter.
  - apply list_elem_of_filter. split; [by apply has_id_spec|done].
  - intros (j & Hj & [_ Hjin]%list_elem_of_filter)%list_elem_of_fmap.
    apply Hnot. rewrite Hj. by apply list_elem_of_fmap_2.
Qed.

Lemma remote_only_kept_witness :
  let localJobs := [SyncExamples.localB] in
  let remoteJobs := [Examples.remoteA] in
  (NoDup (id <$> remoteJobs) ∧ Examples.remoteA ∈ remoteJobs
   ∧ id Examples.remoteA ∉ id <$> localJobs)
  ∧ Examples.remoteA ∈ mergeSheets localJobs remoteJobs.
Proof.
  cbv zeta.
  assert (NoDup (id <$> [Examples.remoteA])) as H1 by apply NoDup_singleton.
  assert (Examples.remoteA ∈ [Examples.remoteA]) as H2 by (by left).
  assert (id Examples.remoteA ∉ id <$> [SyncExamples.localB]) as H3
    by (by intros ?%list_elem_of_singleton).
  split; [done|].
  apply (proj2 (remote_only_kept _ _ _ H1 H2 H3)). discriminate.
Defined.

(** X4.  When no id is on both sides (the ids of each side are distinct
    and every [createdAt] is a number), the merge of [syncWithFirebase] is
    the remote jobs followed by the local jobs, sorted: a rearrangement of
    that list in descending order of [createdAt] in which the jobs of one
    time stamp keep their order; so no job is combined with another. *)
Theorem merge_disjoint (localJobs remoteJobs : list Job) :
  NoDup (id <$> localJobs) → NoDup (id <$> remoteJobs) →
  (∀ k, k ∈ id <$> localJobs → k ∉ id <$> remoteJobs) →
  Forall timed localJobs → Forall timed remoteJobs →
  mergeFirebase localJobs remoteJobs = sortByCreatedAtDesc (remoteJobs ++ localJobs)
  ∧ mergeFirebase localJobs remoteJobs ≡ₚ remoteJobs ++ localJobs
  ∧ sortedDesc (mergeFirebase localJobs remoteJobs)
  ∧ ∀ t, stamped t (mergeFirebase localJobs remoteJobs)
         = stamped t (remoteJobs ++ localJobs).
Proof.
  intros Hl Hr Hdisj Htl Htr.
  assert (mergeFirebase localJobs remoteJobs = sortByCreatedAtDesc (remoteJobs ++ localJobs))
    as Heq.
  { unfold mergeFirebase. f_equal.
    rewrite seedFirebase_fold, seed_fresh; [|done|]; last first.
    { intros k _. apply not_elem_of_nil. }
    rewrite overlay_fresh; [|done|]; last first.
    { intros k Hk. simpl. rewrite map_keys_entries. by apply Hdisj. }
    simpl. rewrite <- fmap_app. apply map_values_entries. }
  split_and!.
  - exact Heq.
  - rewrite Heq. apply sortByCreatedAtDesc_perm.
  - by apply sorted_mergeFirebase.
  - intros t. rewrite Heq. apply sort_stamped.
Qed.

Lemma merge_disjoint_witness :
  let localJobs := [Examples.localA; SyncExamples.localB] in
  let remoteJobs := [MergeExamples.remoteC] in
  (NoDup (id <$> localJobs) ∧ NoDup (id <$> remoteJobs)
   ∧ (∀ k, k ∈ id <$> localJobs → k ∉ id <$> remoteJobs)
   ∧ Forall timed localJobs ∧ Forall timed remoteJobs)
  ∧ mergeFirebase localJobs remoteJobs
    = [SyncExamples.localB; MergeExamples.remoteC; Examples.localA].
Proof.
  cbv zeta.
  assert (NoDup (id <$> [Examples.localA; SyncExamples.localB])) as H1.
  { apply NoDup_cons. split; [by intros ?%list_elem_of_singleton|apply NoDup_singleton]. }
  assert (NoDup (id <$> [MergeExamples.remoteC])) as H2 by apply NoDup_singleton.
  assert (∀ k, k ∈ id <$> [Examples.localA; SyncExamples.localB] →
               k ∉ id <$> [MergeExamples.remoteC]) as H3.
  { intros k Hk Hc. apply list_elem_of_singleton in Hc. subst k.
    apply elem_of_cons in Hk as [Hk|Hk]; [done|].
    by apply list_elem_of_singleton in Hk. }
  assert (Forall timed [Examples.localA; SyncExamples.localB]) as H4
    by (repeat constructor).
  assert (Forall timed [MergeExamples.remoteC]) as H5 by (repeat constructor).
  split; [by split_and!|].
  destruct (merge_disjoint _ _ H1 H2 H3 H4 H5) as [-> _]. by vm_compute.
Defined.

(** X5.  The sort is stable: when every [createdAt] is a number, the jobs
    of the merged list that have a given [createdAt] stand in the order in
    which the map held them (remote jobs in remote order, then new local
    jobs). *)
Theorem sort_stable (t : jsnum) (localJobs remoteJobs : list Job) :
  Forall timed localJobs → Forall timed remoteJobs →
  stamped t (mergeFirebase localJobs remoteJobs)
  = stamped t (map_values (foldl overlayLocal (seedFirebase remoteJobs) localJobs))
  ∧ stamped t (mergeSheets localJobs remoteJobs)
    = stamped t (map_values (foldl overlayLocalSheets (seedSheets remoteJobs) localJobs)).
Proof. intros _ _. split; apply sort_stamped. Qed.

Lemma sort_stable_witness :
  (Forall timed [MergeExamples.sameTime] ∧ Forall timed [Examples.remoteA])
  ∧ stamped (Num 100) (mergeFirebase [MergeExamples.sameTime] [Examples.remoteA])
    = [Examples.remoteA; MergeExamples.sameTime]
  ∧ stamped (Num 100) (mergeSheets [MergeExamples.sameTime] [Examples.remoteA])
    = [Examples.remoteA; MergeExamples.sameTime].
Proof.
  assert (Forall timed [MergeExamples.sameTime]) as H1 by (repeat constructor).
  assert (Forall timed [Examples.remoteA]) as H2 by (repeat constructor).
  split; [by split|].
  destruct (sort_stable (Num 100) [MergeExamples.sameTime] [Examples.remoteA] H1 H2)
    as [-> ->].
  split; by vm_compute.
Defined.

(** X6.  The two merge steps agree on lists in which every job has an id. *)
Theorem merges_agree (localJobs remoteJobs : list Job) :
  Forall has_id localJobs → Forall has_id remoteJobs →
  mergeSheets localJobs remoteJobs = mergeFirebase localJobs remoteJobs.
Proof.
  intros Hl Hr. rewrite mergeSheets_filter.
  assert (∀ js : list Job, Forall has_id js → filter has_id js = js) as Hall.
  { intros js. induction 1 as [|j js Hj _ IH]; [done|].
    rewrite filter_cons_True by done. by f_equal. }
  by rewrite !Hall.
Qed.

Lemma merges_agree_witness :
  (Forall has_id [Examples.localA] ∧ Forall has_id [Examples.remoteA])
  ∧ mergeSheets [Examples.localA] [Examples.remoteA]
    = mergeFirebase [Examples.localA] [Examples.remoteA].
Proof.
  assert (Forall has_id [Examples.localA]) as H1 by (repeat constructor).
  assert (Forall has_id [Examples.remoteA]) as H2 by (repeat constructor).
  split; [done|]. exact (merges_agree _ _ H1 H2).
Defined.

(** X7.  The merge makes up no job and no time stamp: every merged job has
    the id and the [createdAt] of a job of one of the two lists. *)
Theorem merged_from_inputs (localJobs remoteJobs : list Job) (m : Job) :
  m ∈ mergeFirebase localJobs remoteJobs ∨ m ∈ mergeSheets localJobs remoteJobs →
  ∃ j, (j ∈ localJobs ∨ j ∈ remoteJobs) ∧ id j = id m ∧ createdAt j = createdAt m.
Proof.
  assert (∀ ls rs, m ∈ mergeFirebase ls rs →
            ∃ j, (j ∈ ls ∨ j ∈ rs) ∧ id j = id m ∧ createdAt j = createdAt m) as Hfb.
  { intros ls rs Hm. unfold mergeFirebase in Hm.
    rewrite elem_of_sortByCreatedAtDesc in Hm.
    assert (Forall (λ m, ∃ j, (j ∈ ls ∨ j ∈ rs) ∧ id j = id m ∧ createdAt j = createdAt m)
              (map_values (mergedMap ls rs))) as HF.
    { apply Forall_mergedMap.
      - intros r l (j & ? & ? & ?). by exists j.
      - apply Forall_forall. intros j Hj. exists j. auto.
      - apply Forall_forall. intros j Hj. exists j. auto. }
    rewrite Forall_forall in HF. by apply HF. }
  intros [Hm|Hm]; [by apply Hfb|].
  rewrite mergeSheets_filter in Hm. apply Hfb in Hm as (j & Hj & ? & ?).
  exists j. split; [|done].
  destruct Hj as [[_ ?]%list_elem_of_filter|[_ ?]%list_elem_of_filter]; auto.
Qed.

Lemma merged_from_inputs_witness :
  (Examples.remoteA ∈ mergeFirebase [] [Examples.remoteA]
   ∨ Examples.remoteA ∈ mergeSheets [] [Examples.remoteA])
  ∧ ∃ j, (j ∈ [] ∨ j ∈ [Examples.remoteA]) ∧ id j = "A" ∧ createdAt j = Num 100.
Proof.
  assert (Examples.remoteA ∈ mergeFirebase [] [Examples.remoteA]) as H by (by left).
  split; [by left|].
  exact (merged_from_inputs [] [Examples.remoteA] Examples.remoteA (or_introl H)).
Defined.

(** * Further properties of the row codec *)

Section RowMore.

Lemma split_from_skip sep n acc c s :
  split_from sep (S n) acc (String c s) = split_from sep n acc s.
Proof. reflexivity. Qed.

Lemma prefix_sep_inv c s :
  String.prefix ", " (String c s) = true → ∃ s', c = ","%char ∧ s = String " " s'.
Proof.
  intros H. cbn [String.prefix] in H.
  destruct (ascii_dec ","%char c) as [<-|]; [|discriminate].
  destruct s as [|d s']; cbn [String.prefix] in H; [discriminate|].
  destruct (ascii_dec " "%char d) as [<-|]; [|discriminate]. by exists s'.
Qed.

Lemma join_cons x y (l : list string) :
  join ", " (x :: y :: l) = x +:+ ", " +:+ join ", " (y :: l).
Proof. reflexivity. Qed.

Lemma split_from_nonempty acc s n : split_from ", " n acc s ≠ [].
Proof.
  revert acc n. induction s as [|c s IH]; intros acc n; [done|].
  destruct n as [|n]; [|by rewrite split_from_skip].
  rewrite split_from_cons. by destruct (String.prefix ", " (String c s)).
Qed.

Lemma join_split_from (n : nat) :
  ∀ s acc, (String.length s ≤ n)%nat →
    join ", " (split_from ", " 0 acc s) = acc +:+ s.
Proof.
  induction n as [|n IH]; intros s acc Hlen.
  - destruct s; [|simpl in Hlen; lia]. simpl. by rewrite app_empty_r.
  - destruct s as [|c s]; [simpl; by rewrite app_empty_r|].
    rewrite split_from_cons.
    destruct (String.prefix ", " (String c s)) eqn:Hp.
    + apply prefix_sep_inv in Hp as (s' & -> & ->).
      change (String.length ", " - 1)%nat with 1%nat. rewrite split_from_skip.
      destruct (split_from ", " 0 "" s') as [|y l] eqn:Hs; [by apply split_from_nonempty in Hs|].
      rewrite join_cons, <- Hs, IH by (simpl in *; lia). done.
    + rewrite IH by (simpl in *; lia).
      by rewrite app_assoc_s, app_cons_l, app_nil_l.
Qed.

(** [s.split(', ').join(', ')] is [s]. *)
Lemma join_split s : join ", " (split ", " s) = s.
Proof. unfold split. by rewrite (join_split_from (String.length s)). Qed.

Lemma or_else_idem x d : or_else (Some (or_else x d)) d = or_else x d.
Proof.
  destruct (decide (or_else x d = "")) as [He|Hne]; [|by rewrite or_else_nonempty].
  rewrite He. unfold or_else in *. destruct (truthy x) eqn:Hx.
  - destruct x as [s|]; [|done]. simpl in *. by subst.
  - by subst.
Qed.

Lemma jobToRow_valid (h : Host) (job : Job) :
  valid_time (createdAt job) = true →
  ∃ r, jobToRow h job = Ok r ∧ at_ r 9 = Some "[]" ∧ at_ r 10 = Some "[]".
Proof.
  unfold jobToRow. destruct (createdAt job) as [t|]; [|done].
  intros ->. by eexists.
Qed.


End RowMore.

(** X8.  [jobToRow] gives a row exactly when [createdAt] is a time a [Date]
    can hold, and throws a [RangeError] otherwise; the row has eleven
    cells, none missing, and its two image cells are ["[]"] whatever
    pictures the job has. *)
Theorem jobToRow_outcome (h : Host) (job : Job) :
  (valid_time (createdAt job) = true →
   ∃ r, jobToRow h job = Ok r ∧ length r = 11%nat ∧ Forall is_Some r
        ∧ at_ r 9 = Some "[]" ∧ at_ r 10 = Some "[]")
  ∧ (valid_time (createdAt job) = false → jobToRow h job = Throw RangeError).
Proof.
  unfold jobToRow. destruct (createdAt job) as [t|]; split; intros Hv; try done.
  - rewrite Hv. eexists. split; [reflexivity|]. split_and!; try done.
    repeat constructor; by eexists.
  - by rewrite Hv.
Qed.

Lemma jobToRow_outcome_witness :
  (valid_time (createdAt RowExamples.plain) = true
   ∧ valid_time (createdAt RowExamples.untimed) = false)
  ∧ (∃ r, jobToRow refHost RowExamples.plain = Ok r ∧ length r = 11%nat)
  ∧ jobToRow refHost RowExamples.untimed = Throw RangeError.
Proof.
  split; [done|]. split.
  - destruct (proj1 (jobToRow_outcome refHost RowExamples.plain) eq_refl)
      as (r & Hr & Hlen & _). by exists r.
  - exact (proj2 (jobToRow_outcome refHost RowExamples.untimed) eq_refl).
Defined.

(** X9.  [rowToJob] reads the first eleven cells of a row and takes a
    missing cell, an [undefined] one and an empty one alike: two rows that
    differ only in such cells, or beyond the eleventh, give the same job. *)
Theorem rowToJob_blank_cells (h : Host) (r r' : row) :
  (∀ i, (i < 11)%nat →
        at_ r i = at_ r' i ∨ (truthy (at_ r i) = false ∧ truthy (at_ r' i) = false)) →
  rowToJob h r = rowToJob h r'.
Proof.
  intros Hcells.
  assert (∀ i d, (i < 11)%nat → or_else (at_ r i) d = or_else (at_ r' i) d) as Hd.
  { intros i d Hi. destruct (Hcells i Hi) as [->|[H1 H2]]; [done|].
    unfold or_else. by rewrite H1, H2. }
  unfold rowToJob. by rewrite !Hd by lia.
Qed.

Lemma rowToJob_blank_cells_witness :
  (∀ i, (i < 11)%nat →
        at_ [] i = at_ MoreExamples.rowBlank i
        ∨ (truthy (at_ [] i) = false ∧ truthy (at_ MoreExamples.rowBlank i) = false))
  ∧ rowToJob refHost [] = rowToJob refHost MoreExamples.rowBlank.
Proof.
  assert (∀ i, (i < 11)%nat →
            at_ [] i = at_ MoreExamples.rowBlank i
            ∨ (truthy (at_ [] i) = false ∧ truthy (at_ MoreExamples.rowBlank i) = false)) as H.
  { intros i Hi. right. split; [done|].
    do 11 (destruct i as [|i]; [reflexivity|]). lia. }
  split; [exact H|]. exact (rowToJob_blank_cells refHost [] MoreExamples.rowBlank H).
Defined.

(** X10.  The image cells of a row are read in one [try]: when the intake
    cell is not JSON the damage cell is not read at all and the job has no
    picture; when the intake cell is JSON and the damage cell is not, the
    intake picture is kept and the damage pictures are empty; when both are
    arrays the job gets the first element of the one and all elements of
    the other. *)
Theorem rowToJob_image_cells (h : Host) (r : row) :
  (∀ e, JSON_parse h (intakeCell r) = Throw e →
        intakeImage (rowToJob h r) = Undefined ∧ damageImages (rowToJob h r) = Value [])
  ∧ (∀ x xs e, JSON_parse h (intakeCell r) = Ok (PArray (x :: xs)) →
               JSON_parse h (damageCell r) = Throw e →
        intakeImage (rowToJob h r) = Value x ∧ damageImages (rowToJob h r) = Value [])
  ∧ (∀ x xs l, JSON_parse h (intakeCell r) = Ok (PArray (x :: xs)) →
               JSON_parse h (damageCell r) = Ok (PArray l) →
        intakeImage (rowToJob h r) = Value x ∧ damageImages (rowToJob h r) = Value l).
Proof.
  unfold intakeCell, damageCell, rowToJob, parseImageCells.
  split_and!; intros; by repeat match goal with H : JSON_parse _ _ = _ |- _ => rewrite H; clear H end.
Qed.

Lemma rowToJob_image_cells_witness :
  JSON_parse refHost (intakeCell MoreExamples.rowBadIntake) = Throw SyntaxError
  ∧ intakeImage (rowToJob refHost MoreExamples.rowBadIntake) = Undefined
  ∧ damageImages (rowToJob refHost MoreExamples.rowBadIntake) = Value [].
Proof.
  split; [by vm_compute|].
  exact (proj1 (rowToJob_image_cells refHost MoreExamples.rowBadIntake) SyntaxError eq_refl).
Defined.

(** X11.  The time stamp goes through the row: when [createdAt] is a valid
    time [t] and the host's [Date] reads back what it writes for [t],
    [rowToJob] of [jobToRow] of the job has the same [createdAt]. *)
Theorem createdAt_roundtrip (h : Host) (job : Job) (t : Z) :
  createdAt job = Num t → valid_time (Num t) = true →
  toISOString h t ≠ "" → Date_parse h (toISOString h t) = Num t →
  ∃ r, jobToRow h job = Ok r ∧ createdAt (rowToJob h r) = createdAt job.
Proof.
  intros Ht Hv Hne Hparse. unfold jobToRow. rewrite Ht, Hv.
  eexists. split; [reflexivity|]. unfold rowToJob, at_. simpl.
  destruct (parseImageCells _ _ _). simpl.
  by rewrite or_else_nonempty.
Qed.

Lemma createdAt_roundtrip_witness :
  (createdAt RowExamples.plain = Num 1700000000000
   ∧ valid_time (Num 1700000000000) = true
   ∧ toISOString refHost 1700000000000 ≠ ""
   ∧ Date_parse refHost (toISOString refHost 1700000000000) = Num 1700000000000)
  ∧ ∃ r, jobToRow refHost RowExamples.plain = Ok r
         ∧ createdAt (rowToJob refHost r) = Num 1700000000000.
Proof.
  assert (toISOString refHost 1700000000000 ≠ "") as Hne by (by vm_compute).
  assert (Date_parse refHost (toISOString refHost 1700000000000) = Num 1700000000000)
    as Hp by (by vm_compute).
  split; [split_and!; [reflexivity|reflexivity|exact Hne|exact Hp]|].
  exact (createdAt_roundtrip refHost RowExamples.plain 1700000000000 eq_refl eq_refl Hne Hp).
Defined.

(** X12.  Decoding a row and encoding the job again gives the text cells
    back: when the decoded [createdAt] is a valid time, the new row has the
    id, plate, make, model, parts and notes cells of the old one (empty for
    a missing cell), its status and repair type (the defaults for a missing
    or empty cell), and empty image cells. *)
Theorem row_reencode (h : Host) (r : row) :
  valid_time (createdAt (rowToJob h r)) = true →
  ∃ r', jobToRow h (rowToJob h r) = Ok r'
        ∧ at_ r' 0 = Some (or_else (at_ r 0) "")
        ∧ at_ r' 2 = Some (or_else (at_ r 2) JobStatus.INTAKE)
        ∧ at_ r' 3 = Some (or_else (at_ r 3) "")
        ∧ at_ r' 4 = Some (or_else (at_ r 4) "")
        ∧ at_ r' 5 = Some (or_else (at_ r 5) "")
        ∧ at_ r' 6 = Some (or_else (at_ r 6) "AMBOS")
        ∧ at_ r' 7 = Some (or_else (at_ r 7) "")
        ∧ at_ r' 8 = Some (or_else (at_ r 8) "")
        ∧ at_ r' 9 = Some "[]" ∧ at_ r' 10 = Some "[]".
Proof.
  intros Hv. unfold jobToRow.
  destruct (createdAt (rowToJob h r)) as [t|] eqn:Ht; [|done]. rewrite Hv.
  eexists. split; [reflexivity|].
  unfold rowToJob, at_. destruct (parseImageCells _ _ _). cbn -[or_else join split truthy].
  rewrite !or_else_idem. split_and!; try done.
  f_equal. destruct (truthy (Some (or_else (mjoin (r !! 7%nat)) ""))) eqn:Htr.
  - apply join_split.
  - apply not_true_iff_false in Htr. rewrite truthy_Some in Htr.
    by destruct (decide (or_else (mjoin (r !! 7%nat)) "" = "")) as [->|].
Qed.

Lemma row_reencode_witness :
  valid_time (createdAt (rowToJob refHost MoreExamples.rowPartial)) = true
  ∧ ∃ r', jobToRow refHost (rowToJob refHost MoreExamples.rowPartial) = Ok r'
          ∧ at_ r' 7 = Some "capo, puerta, " ∧ at_ r' 2 = Some "Ingreso".
Proof.
  split; [by vm_compute|].
  destruct (row_reencode refHost MoreExamples.rowPartial)
    as (r' & Hr & _ & H2 & _ & _ & _ & _ & H7 & _); [by vm_compute|].
  exists r'. split_and!; [exact Hr|exact H7|exact H2].
Defined.

(** X13.  A row whose date cell is there but does not parse cannot be
    encoded again: the decoded job has [createdAt = NaN] and [jobToRow] of
    it throws a [RangeError]. *)
Theorem bad_date_breaks_reencode (h : Host) (r : row) (s : string) :
  at_ r 1 = Some s → s ≠ "" → Date_parse h s = NaN →
  createdAt (rowToJob h r) = NaN
  ∧ jobToRow h (rowToJob h r) = Throw RangeError.
Proof.
  intros Hcell Hne Hnan.
  assert (createdAt (rowToJob h r) = NaN) as Hc.
  { unfold rowToJob. destruct (parseImageCells _ _ _). simpl.
    by rewrite Hcell, or_else_nonempty. }
  split; [done|]. unfold jobToRow. by rewrite Hc.
Qed.

Lemma bad_date_breaks_reencode_witness :
  (at_ Examples.rowBadDate 1 = Some "not-a-date" ∧ "not-a-date" ≠ ""
   ∧ Date_parse refHost "not-a-date" = NaN)
  ∧ jobToRow refHost (rowToJob refHost Examples.rowBadDate) = Throw RangeError.
Proof.
  assert ("not-a-date" ≠ "") as Hne by discriminate.
  split; [done|].
  exact (proj2 (bad_date_breaks_reencode refHost Examples.rowBadDate "not-a-date"
                  eq_refl Hne eq_refl)).
Defined.

(** * Further properties of the orchestrators *)

Section RunFacts.
Context {W : Type} (b : Backend W).

Lemma run_bind {A B} (p : prog A) (f : A → prog B) (w : W) :
  run b (p ≫= f) w
  = match returned (run b p w) with
    | Ok a =>
        let o := run b (f a) (world (run b p w)) in
        mkOutcome (returned o) (trace (run b p w) ++ trace o) (world o)
    | Throw e => mkOutcome (Throw e) (trace (run b p w)) (world (run b p w))
    end.
Proof.
  unfold mbind, prog_mbind. revert w.
  induction p as [a|e|c k IH|c ops k IH|req k IH]; intros w; simpl.
  - by destruct (run b (f a) w).
  - done.
  - destruct (onGetDocs b c w) as [r w']. rewrite IH. simpl.
    by destruct (returned (run b (k r) w')).
  - destruct (onCommit b c ops w) as [r w']. rewrite IH. simpl.
    by destruct (returned (run b (k r) w')).
  - destruct (onFetch b req w) as [r w']. rewrite IH. simpl.
    by destruct (returned (run b (k r) w')).
Qed.

Lemma run_try_catch {A} (p : prog A) (handler : error → prog A) (w : W) :
  run b (try_catch p handler) w
  = match returned (run b p w) with
    | Ok a => run b p w
    | Throw e =>
        let o := run b (handler e) (world (run b p w)) in
        mkOutcome (returned o) (trace (run b p w) ++ trace o) (world o)
    end.
Proof.
  revert w. induction p as [a|e|c k IH|c ops k IH|req k IH]; intros w; simpl.
  - done.
  - by destruct (run b (handler e) w).
  - destruct (onGetDocs b c w) as [r w']. rewrite IH.
    destruct (returned (run b (k r) w')) eqn:Hr; simpl; by rewrite ?Hr.
  - destruct (onCommit b c ops w) as [r w']. rewrite IH.
    destruct (returned (run b (k r) w')) eqn:Hr; simpl; by rewrite ?Hr.
  - destruct (onFetch b req w) as [r w']. rewrite IH.
    destruct (returned (run b (k r) w')) eqn:Hr; simpl; by rewrite ?Hr.
Qed.

Lemma run_fetch (req : request) (w : W) :
  run b (fetch req) w
  = mkOutcome (onFetch b req w).1 [EvFetch req] (onFetch b req w).2.
Proof.
  unfold fetch. simpl. destruct (onFetch b req w) as [[resp|e] w']; done.
Qed.

(** The run of [ensureSheetExists] in terms of the answers it gets. *)
Lemma run_ensureSheetExists (settings : AppSettings) (w : W) :
  run b (ensureSheetExists settings) w
  = match onFetch b (metaRequest settings) w with
    | (Throw e, w1) => mkOutcome (Throw e) [EvFetch (metaRequest settings)] w1
    | (Ok metaRes, w1) =>
        if negb (ok metaRes) then
          mkOutcome
            (Throw (Error
               (if bool_decide (status_code metaRes = 401)
                   || bool_decide (status_code metaRes = 403)
                then "Permiso denegado. Revisa el Access Token."
                else if bool_decide (status_code metaRes = 404)
                then "Hoja de cálculo no encontrada. Revisa el ID."
                else "Error conectando con Google Sheets.")))
            [EvFetch (metaRequest settings)] w1
        else
          match json metaRes with
          | Throw e => mkOutcome (Throw e) [EvFetch (metaRequest settings)] w1
          | Ok metaData =>
              if tabListed metaData
              then mkOutcome (Ok ()) [EvFetch (metaRequest settings)] w1
              else
                match onFetch b (addSheetRequest settings) w1 with
                | (Throw e, w2) =>
                    mkOutcome (Throw e)
                      [EvFetch (metaRequest settings); EvFetch (addSheetRequest settings)] w2
                | (Ok createRes, w2) =>
                    if negb (ok createRes) then
                      mkOutcome (Throw (Error "No se pudo crear la pestaña 'TallerProData'."))
                        [EvFetch (metaRequest settings); EvFetch (addSheetRequest settings)] w2
                    else
                      mkOutcome
                        (match (onFetch b (headerRequest settings) w2).1 with
                         | Ok _ => Ok ()
                         | Throw e => Throw e
                         end)
                        [EvFetch (metaRequest settings); EvFetch (addSheetRequest settings);
                         EvFetch (headerRequest settings)]
                        (onFetch b (headerRequest settings) w2).2
                end
          end
    end.
Proof.
  unfold ensureSheetExists. cbv zeta. fold (BASE_URL settings).
  fold (metaRequest settings) (addSheetRequest settings) (headerRequest settings).
  rewrite run_bind, run_fetch.
  destruct (onFetch b (metaRequest settings) w) as [[metaRes|e] w1]; simpl; [|done].
  destruct (ok metaRes); simpl.
  - destruct (json metaRes) as [metaData|e]; simpl; [|done].
    fold (tabListed metaData). destruct (tabListed metaData); simpl; [done|].
    destruct (onFetch b (addSheetRequest settings) w1) as [[createRes|e] w2]; simpl; [|done].
    destruct (ok createRes); simpl; [|done].
    destruct (onFetch b (headerRequest settings) w2) as [[resp|e] w3]; done.
  - by repeat case_bool_decide.
Qed.

End RunFacts.

Section SheetsRun.
Context {W : Type} (b : Backend W).

Lemma tabListed_true data titles :
  sheets data = Some titles → SHEET_NAME ∈ titles → tabListed data = true.
Proof.
  unfold tabListed. intros -> Hin. apply existsb_exists. exists SHEET_NAME.
  split; [by apply list_elem_of_In|by apply bool_decide_eq_true].
Qed.

Lemma tabListed_false data :
  (∀ titles, sheets data = Some titles → SHEET_NAME ∉ titles) → tabListed data = false.
Proof.
  unfold tabListed. intros Hno. destruct (sheets data) as [titles|]; [|done].
  apply not_true_is_false. intros (t & Hin & Ht)%existsb_exists.
  apply bool_decide_eq_true in Ht as ->. by apply (Hno titles), list_elem_of_In.
Qed.

Lemma map_result_valid (h : Host) (js : list Job) :
  Forall (λ j, valid_time (createdAt j) = true) js →
  ∃ rows, map_result (jobToRow h) js = Ok rows
          ∧ length rows = length js ∧ Forall emptyImageCells rows.
Proof.
  induction 1 as [|j js Hj _ (rows & Hrows & Hlen & Hcells)]; simpl.
  - by exists [].
  - destruct (jobToRow_valid h j Hj) as (r & Hr & H9 & H10).
    rewrite Hr, Hrows. exists (r :: rows). split_and!; [done|by simpl; f_equal|].
    by constructor.
Qed.


Lemma run_writeBack (settings : AppSettings) (h : Host) (mergedJobs : list Job) (w : W) :
  run b (writeBack settings h mergedJobs) w
  = match onFetch b (clearRequest settings) w with
    | (Throw e, w1) => mkOutcome (Throw e) [EvFetch (clearRequest settings)] w1
    | (Ok _, w1) =>
        match map_result (jobToRow h) mergedJobs with
        | Throw e => mkOutcome (Throw e) [EvFetch (clearRequest settings)] w1
        | Ok rows =>
            match onFetch b (appendRequest settings rows) w1 with
            | (Throw e, w2) =>
                mkOutcome (Throw e)
                  [EvFetch (clearRequest settings); EvFetch (appendRequest settings rows)] w2
            | (Ok writeResponse, w2) =>
                mkOutcome
                  (if ok writeResponse then Ok mergedJobs
                   else match json writeResponse with
                        | Ok err =>
                            Throw (Error ("Error escribiendo en Sheet: "
                                          +:+ or_else (error_message err) "Unknown error"))
                        | Throw e => Throw e
                        end)
                  [EvFetch (clearRequest settings); EvFetch (appendRequest settings rows)] w2
            end
        end
    end.
Proof.
  unfold writeBack. rewrite run_bind, run_fetch.
  destruct (onFetch b (clearRequest settings) w) as [[resp|e] w1]; simpl; [|done].
  destruct (map_result (jobToRow h) mergedJobs) as [rows|e]; simpl; [|done].
  destruct (onFetch b (appendRequest settings rows) w1) as [[wresp|e] w2]; simpl; [|done].
  destruct (ok wresp); simpl; [done|].
  by destruct (json wresp).
Qed.

Lemma run_readSheet (settings : AppSettings) (h : Host) (w : W) :
  run b (readSheet settings h) w
  = mkOutcome (Ok (sheetJobsOf h (onFetch b (valuesRequest settings) w).1))
      [EvFetch (valuesRequest settings)] (onFetch b (valuesRequest settings) w).2.
Proof.
  unfold readSheet, sheetJobsOf, fetch. simpl.
  destruct (onFetch b (valuesRequest settings) w) as [[resp|e] w1]; simpl; [|done].
  destruct (ok resp); simpl; [|done].
  destruct (json resp) as [data|e]; simpl; [|done].
  by destruct (values data).
Qed.

Lemma syncWithGoogleSheets_phases (h : Host) (localJobs : list Job) (settings : AppSettings) :
  sheetsConfigured settings = true →
  syncWithGoogleSheets h localJobs settings
  = (ensureSheetExists settings;;
     sheetJobs ← readSheet settings h;
     writeBack settings h (mergeSheets localJobs sheetJobs)).
Proof.
  intros Hc. unfold sheetsConfigured in Hc. apply andb_true_iff in Hc as [Hid Htok].
  unfold syncWithGoogleSheets. by rewrite Hid, Htok.
Qed.

(** The run of [syncWithGoogleSheets]: the bootstrap, the read of the rows,
    then the write-back of the merge. *)
Lemma run_syncWithGoogleSheets (h : Host) (localJobs : list Job)
    (settings : AppSettings) (w : W) :
  sheetsConfigured settings = true →
  run b (syncWithGoogleSheets h localJobs settings) w
  = let o0 := run b (ensureSheetExists settings) w in
    match returned o0 with
    | Throw e => mkOutcome (Throw e) (trace o0) (world o0)
    | Ok _ =>
        let reply := onFetch b (valuesRequest settings) (world o0) in
        let o := run b (writeBack settings h (mergeSheets localJobs (sheetJobsOf h reply.1)))
                   reply.2 in
        mkOutcome (returned o) (trace o0 ++ EvFetch (valuesRequest settings) :: trace o)
          (world o)
    end.
Proof.
  intros Hc. rewrite syncWithGoogleSheets_phases by done.
  rewrite run_bind. cbv zeta.
  destruct (returned (run b (ensureSheetExists settings) w)); [|done].
  by rewrite run_bind, run_readSheet.
Qed.

End SheetsRun.

(** X14.  When the metadata request of [ensureSheetExists] is answered with
    an error status, the function throws after that one request, with a
    message chosen by the status: 401 and 403 give the permission message,
    404 the not-found message, anything else the generic one. *)
Theorem bootstrap_errors {W : Type} (b : Backend W) (settings : AppSettings)
    (w w1 : W) (metaRes : response) :
  onFetch b (metaRequest settings) w = (Ok metaRes, w1) → ok metaRes = false →
  let o := run b (ensureSheetExists settings) w in
  trace o = [EvFetch (metaRequest settings)]
  ∧ (status_code metaRes = 401 ∨ status_code metaRes = 403 →
     returned o = Throw (Error "Permiso denegado. Revisa el Access Token."))
  ∧ (status_code metaRes = 404 →
     returned o = Throw (Error "Hoja de cálculo no encontrada. Revisa el ID."))
  ∧ (status_code metaRes ≠ 401 → status_code metaRes ≠ 403 → status_code metaRes ≠ 404 →
     returned o = Throw (Error "Error conectando con Google Sheets.")).
Proof.
  intros Hmeta Hok o. unfold o. rewrite run_ensureSheetExists, Hmeta, Hok. simpl.
  split_and!; [done|..].
  - intros [-> | ->]; done.
  - by intros ->.
  - intros H1 H2 H3. by rewrite !bool_decide_eq_false_2.
Qed.

Lemma bootstrap_errors_witness :
  (onFetch SheetExamples.scripted (metaRequest SheetExamples.settings)
     [Ok (SheetExamples.failed 403)] = (Ok (SheetExamples.failed 403), [])
   ∧ ok (SheetExamples.failed 403) = false)
  ∧ returned (run SheetExamples.scripted (ensureSheetExists SheetExamples.settings)
                [Ok (SheetExamples.failed 403)])
    = Throw (Error "Permiso denegado. Revisa el Access Token.").
Proof.
  split; [done|].
  destruct (bootstrap_errors SheetExamples.scripted SheetExamples.settings
              [Ok (SheetExamples.failed 403)] [] (SheetExamples.failed 403) eq_refl eq_refl)
    as (_ & H & _).
  apply H. by right.
Defined.

(** X15.  The bootstrap does nothing when the tab is there: if the metadata
    list the tab [TallerProData], [ensureSheetExists] returns after its one
    read, without any write. *)
Theorem bootstrap_noop {W : Type} (b : Backend W) (settings : AppSettings)
    (w w1 : W) (metaRes : response) (metaData : resData) (titles : list string) :
  onFetch b (metaRequest settings) w = (Ok metaRes, w1) → ok metaRes = true →
  json metaRes = Ok metaData → sheets metaData = Some titles → SHEET_NAME ∈ titles →
  run b (ensureSheetExists settings) w
  = mkOutcome (Ok ()) [EvFetch (metaRequest settings)] w1.
Proof.
  intros Hmeta Hok Hjson Hsheets Hin.
  rewrite run_ensureSheetExists, Hmeta, Hok, Hjson. simpl.
  by rewrite (tabListed_true _ _ Hsheets Hin).
Qed.

Lemma bootstrap_noop_witness :
  (onFetch SheetExamples.scripted (metaRequest SheetExamples.settings)
     [Ok SheetExamples.tabThere] = (Ok SheetExamples.tabThere, [])
   ∧ ok SheetExamples.tabThere = true
   ∧ SHEET_NAME ∈ ["Hoja 1"; "TallerProData"])
  ∧ trace (run SheetExamples.scripted (ensureSheetExists SheetExamples.settings)
             [Ok SheetExamples.tabThere])
    = [EvFetch (metaRequest SheetExamples.settings)].
Proof.
  assert (SHEET_NAME ∈ ["Hoja 1"; "TallerProData"]) as Hin by (right; by left).
  split; [done|].
  by rewrite (bootstrap_noop SheetExamples.scripted SheetExamples.settings
                [Ok SheetExamples.tabThere] [] SheetExamples.tabThere _ _
                eq_refl eq_refl eq_refl eq_refl Hin).
Defined.

(** X16.  When the metadata do not list the tab, [ensureSheetExists] asks
    for the tab to be added.  If that is refused it throws and writes no
    header.  If it is accepted it appends the header row of eleven titles
    and returns, whatever the status of the answer to that append, which it
    does not look at. *)
Theorem bootstrap_creates {W : Type} (b : Backend W) (settings : AppSettings)
    (w w1 w2 : W) (metaRes createRes : response) (metaData : resData) :
  onFetch b (metaRequest settings) w = (Ok metaRes, w1) → ok metaRes = true →
  json metaRes = Ok metaData →
  (∀ titles, sheets metaData = Some titles → SHEET_NAME ∉ titles) →
  onFetch b (addSheetRequest settings) w1 = (Ok createRes, w2) →
  (ok createRes = false →
   run b (ensureSheetExists settings) w
   = mkOutcome (Throw (Error "No se pudo crear la pestaña 'TallerProData'."))
       [EvFetch (metaRequest settings); EvFetch (addSheetRequest settings)] w2)
  ∧ (ok createRes = true →
     ∀ headerRes w3, onFetch b (headerRequest settings) w2 = (Ok headerRes, w3) →
       run b (ensureSheetExists settings) w
       = mkOutcome (Ok ())
           [EvFetch (metaRequest settings); EvFetch (addSheetRequest settings);
            EvFetch (headerRequest settings)] w3).
Proof.
  intros Hmeta Hok Hjson Hno Hcreate.
  rewrite run_ensureSheetExists, Hmeta, Hok, Hjson. simpl.
  rewrite (tabListed_false _ Hno), Hcreate.
  split; intros Hc; rewrite Hc; simpl; [done|].
  by intros headerRes w3 ->.
Qed.

Lemma bootstrap_creates_witness :
  let script := [Ok SheetExamples.tabMissing; Ok (SheetExamples.okBody SheetExamples.noData);
                 Ok (SheetExamples.failed 500)] in
  (ok SheetExamples.tabMissing = true
   ∧ ∀ titles, sheets (mkResData (Some ["Hoja 1"]) None None) = Some titles →
               SHEET_NAME ∉ titles)
  ∧ run SheetExamples.scripted (ensureSheetExists SheetExamples.settings) script
    = mkOutcome (Ok ())
        [EvFetch (metaRequest SheetExamples.settings);
         EvFetch (addSheetRequest SheetExamples.settings);
         EvFetch (headerRequest SheetExamples.settings)] [].
Proof.
  cbv zeta.
  assert (∀ titles, sheets (mkResData (Some ["Hoja 1"]) None None) = Some titles →
                    SHEET_NAME ∉ titles) as Hno.
  { intros titles [= <-]. by intros ?%list_elem_of_singleton. }
  split; [done|].
  destruct (bootstrap_creates SheetExamples.scripted SheetExamples.settings
              [Ok SheetExamples.tabMissing; Ok (SheetExamples.okBody SheetExamples.noData);
               Ok (SheetExamples.failed 500)]
              [Ok (SheetExamples.okBody SheetExamples.noData); Ok (SheetExamples.failed 500)]
              [Ok (SheetExamples.failed 500)]
              SheetExamples.tabMissing (SheetExamples.okBody SheetExamples.noData) _
              eq_refl eq_refl eq_refl Hno eq_refl) as [_ H].
  exact (H eq_refl (SheetExamples.failed 500) [] eq_refl).
Defined.

(** X17.  A full run of [syncWithGoogleSheets]: once the bootstrap is
    through and the rows are read, and every merged job has a valid
    [createdAt], the function clears the data range, appends one row per
    merged job, each with empty image cells, and on a successful answer
    returns the merge of the local jobs with the decoded rows; the answer to
    the clear request is not looked at. *)
Theorem sheets_sync_run {W : Type} (b : Backend W) (h : Host) (localJobs : list Job)
    (settings : AppSettings) (w w0 w1 w2 : W) (tr0 : list event)
    (resp clearRes : response) (data : resData) (sheetRows : list row) :
  sheetsConfigured settings = true →
  run b (ensureSheetExists settings) w = mkOutcome (Ok ()) tr0 w0 →
  onFetch b (valuesRequest settings) w0 = (Ok resp, w1) →
  ok resp = true → json resp = Ok data → values data = Some sheetRows →
  let mergedJobs := mergeSheets localJobs (rowToJob h <$> sheetRows) in
  Forall (λ j, valid_time (createdAt j) = true) mergedJobs →
  onFetch b (clearRequest settings) w1 = (Ok clearRes, w2) →
  ∃ rows, map_result (jobToRow h) mergedJobs = Ok rows
          ∧ length rows = length mergedJobs
          ∧ Forall emptyImageCells rows
          ∧ ∀ writeRes w3,
              onFetch b (appendRequest settings rows) w2 = (Ok writeRes, w3) →
              ok writeRes = true →
              run b (syncWithGoogleSheets h localJobs settings) w
              = mkOutcome (Ok mergedJobs)
                  (tr0 ++ [EvFetch (valuesRequest settings); EvFetch (clearRequest settings);
                           EvFetch (appendRequest settings rows)]) w3.
Proof.
  intros Hc Hboot Hread Hok Hjson Hvalues mergedJobs Hvalid Hclear.
  destruct (map_result_valid h mergedJobs Hvalid) as (rows & Hrows & Hlen & Hcells).
  exists rows. split_and!; [done..|].
  intros writeRes w3 Hwrite Hwok.
  rewrite run_syncWithGoogleSheets, Hboot by done. cbn [returned trace world]. cbv zeta.
  rewrite Hread. cbn [fst snd]. unfold sheetJobsOf. rewrite Hok, Hjson, Hvalues.
  fold mergedJobs. rewrite run_writeBack, Hclear, Hrows, Hwrite, Hwok. done.
Qed.

Lemma sheets_sync_run_witness :
  let script := [Ok SheetExamples.tabThere; Ok SheetExamples.rowsRead;
                 Ok SheetExamples.accepted; Ok SheetExamples.accepted] in
  (sheetsConfigured SheetExamples.settings = true
   ∧ Forall (λ j, valid_time (createdAt j) = true)
       (mergeSheets [RowExamples.plain]
          (rowToJob refHost <$> [Examples.rowOld; Examples.rowNew])))
  ∧ returned (run SheetExamples.scripted
                (syncWithGoogleSheets refHost [RowExamples.plain] SheetExamples.settings)
                script)
    = Ok (mergeSheets [RowExamples.plain]
            (rowToJob refHost <$> [Examples.rowOld; Examples.rowNew])).
Proof.
  cbv zeta.
  assert (Forall (λ j, valid_time (createdAt j) = true)
            (mergeSheets [RowExamples.plain]
               (rowToJob refHost <$> [Examples.rowOld; Examples.rowNew]))) as Hv.
  { apply (bool_decide_unpack _). vm_compute. exact I. }
  split; [split; [reflexivity|exact Hv]|].
  destruct (sheets_sync_run SheetExamples.scripted refHost [RowExamples.plain]
              SheetExamples.settings
              [Ok SheetExamples.tabThere; Ok SheetExamples.rowsRead;
               Ok SheetExamples.accepted; Ok SheetExamples.accepted]
              [Ok SheetExamples.rowsRead; Ok SheetExamples.accepted; Ok SheetExamples.accepted]
              [Ok SheetExamples.accepted; Ok SheetExamples.accepted]
              [Ok SheetExamples.accepted]
              [EvFetch (metaRequest SheetExamples.settings)]
              SheetExamples.rowsRead SheetExamples.accepted _ _
              eq_refl eq_refl eq_refl eq_refl eq_refl eq_refl Hv eq_refl)
    as (rows & _ & _ & _ & Hrun).
  by rewrite (Hrun SheetExamples.accepted [] eq_refl eq_refl).
Defined.







(** * Further properties of the document store and the normaliser *)

Section FirebaseRun.
Context {W : Type} (b : Backend W) (h : Host).

Lemma prepareJobForCloud_id (job : Job) : id (prepareJobForCloud h job) = id job.
Proof.
  unfold prepareJobForCloud. cbv zeta.
  destruct (read (intakeImage job)) as [img|]; [destruct (truthy (Some img))|];
    by destruct (nonempty_images _).
Qed.

Lemma docId_cleanData (job : Job) : docId (cleanData job) = Some (JString (id job)).
Proof. unfold docId, cleanData. cbn [app list_to_map foldr]. by rewrite lookup_insert_eq. Qed.

Lemma compress_unloadable (s : string) :
  loadImage h s = None → compressImage_default h s = s.
Proof. unfold compressImage_default, compressImage. by intros ->. Qed.

Lemma compress_unloadable_all (l : list string) :
  Forall (λ s, loadImage h s = None) l → compressImage_default h <$> l = l.
Proof.
  induction 1 as [|s l Hs _ IH]; csimpl; [done|]. by rewrite compress_unloadable, IH.
Qed.

End FirebaseRun.

(** X21.  A read of the remote collection that rejects ends
    [syncWithFirebase] with that error: nothing is merged, no batch is
    committed, and the only call made is the read. *)
Theorem firebase_read_failure {W : Type} (b : Backend W) (h : Host)
    (localJobs : list Job) (settings : AppSettings) (config : FirebaseConfig)
    (e : error) (w w1 : W) :
  firebaseConfig settings = Some config → apiKey config ≠ "" →
  onGetDocs b config w = (Throw e, w1) →
  run b (syncWithFirebase h localJobs settings) w
  = mkOutcome (Throw e) [EvGetDocs config] w1.
Proof.
  intros Hc Hkey Hdocs. unfold syncWithFirebase. rewrite Hc.
  apply truthy_Some in Hkey. rewrite Hkey. simpl. by rewrite Hdocs.
Qed.

Lemma firebase_read_failure_witness :
  (firebaseConfig SyncExamples.withFirebase = Some SyncExamples.config
   ∧ apiKey SyncExamples.config ≠ ""
   ∧ onGetDocs SheetExamples.unreachable SyncExamples.config ()
     = (Throw (Rejected "unavailable"), ()))
  ∧ run SheetExamples.unreachable
      (syncWithFirebase refHost [Examples.localA] SyncExamples.withFirebase) ()
    = mkOutcome (Throw (Rejected "unavailable")) [EvGetDocs SyncExamples.config] ().
Proof.
  assert (apiKey SyncExamples.config ≠ "") as Hkey by discriminate.
  split; [by split_and!|].
  exact (firebase_read_failure SheetExamples.unreachable refHost [Examples.localA]
           SyncExamples.withFirebase SyncExamples.config _ () () eq_refl Hkey eq_refl).
Defined.

(** X22.  A commit that rejects ends [syncWithFirebase] with that error:
    the merged list is not returned, although the read and the commit were
    both made. *)
Theorem firebase_commit_failure {W : Type} (b : Backend W) (h : Host)
    (localJobs remoteJobs : list Job) (settings : AppSettings) (config : FirebaseConfig)
    (e : error) (w w1 w2 : W) :
  firebaseConfig settings = Some config → apiKey config ≠ "" →
  onGetDocs b config w = (Ok remoteJobs, w1) →
  mergeFirebase localJobs remoteJobs ≠ [] →
  onCommit b config (payload h <$> take 450 (mergeFirebase localJobs remoteJobs)) w1
  = (Throw e, w2) →
  run b (syncWithFirebase h localJobs settings) w
  = mkOutcome (Throw e)
      [EvGetDocs config;
       EvCommit config (payload h <$> take 450 (mergeFirebase localJobs remoteJobs))]
      w2.
Proof.
  intros Hc Hkey Hdocs Hne Hcommit.
  rewrite (run_syncWithFirebase b h _ _ _ _ _ _ Hc Hkey Hdocs). cbv zeta.
  destruct (mergeFirebase localJobs remoteJobs) as [|j js]; [done|].
  by rewrite Hcommit.
Qed.

Lemma firebase_commit_failure_witness :
  let b := SheetExamples.readOnly [Examples.remoteA] in
  (firebaseConfig SyncExamples.withFirebase = Some SyncExamples.config
   ∧ apiKey SyncExamples.config ≠ ""
   ∧ onGetDocs b SyncExamples.config () = (Ok [Examples.remoteA], ())
   ∧ mergeFirebase [Examples.localA] [Examples.remoteA] ≠ [])
  ∧ returned (run b (syncWithFirebase refHost [Examples.localA] SyncExamples.withFirebase) ())
    = Throw (Rejected "permission-denied").
Proof.
  cbv zeta.
  assert (apiKey SyncExamples.config ≠ "") as Hkey by discriminate.
  assert (mergeFirebase [Examples.localA] [Examples.remoteA] ≠ []) as Hne by (by vm_compute).
  split; [by split_and!|].
  by rewrite (firebase_commit_failure (SheetExamples.readOnly [Examples.remoteA]) refHost
                [Examples.localA] [Examples.remoteA] SyncExamples.withFirebase
                SyncExamples.config _ () () () eq_refl Hkey eq_refl Hne eq_refl).
Defined.

(** X23.  The batch of [syncWithFirebase] writes each document under the
    id the document itself carries, no two writes go to the same document,
    and when the merged list has at most 450 jobs the documents written are
    exactly those of the ids of the local and the remote jobs. *)
Theorem batch_documents (h : Host) (localJobs remoteJobs : list Job) :
  let mergedJobs := mergeFirebase localJobs remoteJobs in
  let batch := payload h <$> take 450 mergedJobs in
  Forall (λ op, docId op.2 = Some (JString op.1)) batch
  ∧ NoDup batch.*1
  ∧ ((length mergedJobs ≤ 450)%nat →
     list_to_set batch.*1 = ids localJobs ∪ ids remoteJobs).
Proof.
  intros mergedJobs batch.
  assert (batch.*1 = take 450 (id <$> mergedJobs)) as Hkeys.
  { unfold batch. by rewrite <- list_fmap_compose, fmap_take. }
  split_and!.
  - unfold batch. apply Forall_fmap, Forall_forall. intros j _.
    unfold payload. cbn [compose fst snd].
    by rewrite docId_cleanData, prepareJobForCloud_id.
  - rewrite Hkeys.
    pose proof (NoDup_ids_mergeFirebase localJobs remoteJobs) as Hnd.
    fold mergedJobs in Hnd. rewrite <- (take_drop 450 (id <$> mergedJobs)) in Hnd.
    by apply NoDup_app in Hnd as [Hnd _].
  - intros Hlen. rewrite Hkeys, take_ge by (by rewrite length_fmap).
    apply ids_mergeFirebase.
Qed.

Lemma batch_documents_witness :
  let localJobs := [Examples.localA; SyncExamples.localB] in
  (length (mergeFirebase localJobs [Examples.remoteA]) ≤ 450)%nat
  ∧ list_to_set (payload refHost <$> take 450 (mergeFirebase localJobs [Examples.remoteA])).*1
    = ids localJobs ∪ ids [Examples.remoteA].
Proof.
  cbv zeta.
  assert (length (mergeFirebase [Examples.localA; SyncExamples.localB] [Examples.remoteA])
          ≤ 450)%nat as Hlen.
  { assert (length (mergeFirebase [Examples.localA; SyncExamples.localB] [Examples.remoteA])
            = 2%nat) as -> by (by vm_compute). lia. }
  split; [exact Hlen|].
  destruct (batch_documents refHost [Examples.localA; SyncExamples.localB] [Examples.remoteA])
    as (_ & _ & Hcover).
  exact (Hcover Hlen).
Defined.

(** X24.  [prepareJobForCloud] changes nothing but the pictures: every
    other field of the copy is the job's, the intake picture is there
    exactly when the job has one, and there are as many damage pictures as
    before. *)
Theorem prepare_keeps_fields (h : Host) (job : Job) :
  let jobToSave := prepareJobForCloud h job in
  id jobToSave = id job
  ∧ createdAt jobToSave = createdAt job
  ∧ status jobToSave = status job
  ∧ carDetails jobToSave = carDetails job
  ∧ identifiedParts jobToSave = identifiedParts job
  ∧ manualNotes jobToSave = manualNotes job
  ∧ repairType jobToSave = repairType job
  ∧ (is_Some (read (intakeImage jobToSave)) ↔ is_Some (read (intakeImage job)))
  ∧ length <$> read (damageImages jobToSave) = length <$> read (damageImages job).
Proof.
  unfold prepareJobForCloud. cbv zeta.
  destruct job as [i c s cd [| |img] [| |imgs] ps n rt]; simpl;
    try destruct (img =? "")%string; simpl;
    try (destruct imgs as [|x imgs]; simpl);
    split_and!; try done; by rewrite ?length_fmap.
Qed.

(** X25.  A job none of whose pictures can be decoded goes to the store as
    it is: [prepareJobForCloud] returns an equal job ([compressImage]
    resolves with its input when the picture fails to load). *)
Theorem prepare_undecodable (h : Host) (job : Job) :
  Forall (λ s, loadImage h s = None) (picturesOf job) →
  prepareJobForCloud h job = job.
Proof.
  unfold picturesOf, prepareJobForCloud. cbv zeta. intros [Hi Hd]%Forall_app.
  destruct job as [i c s cd [| |img] [| |imgs] ps n rt]; simpl in *;
    try (destruct (img =? "")%string eqn:Ht; simpl in *;
         [|apply Forall_cons in Hi as [Hi _]; rewrite (compress_unloadable h _ Hi)]);
    simpl; try done;
    destruct imgs as [|x imgs]; csimpl; try done;
    apply Forall_cons in Hd as [Hx Hd];
    by rewrite (compress_unloadable h _ Hx), (compress_unloadable_all h _ Hd).
Qed.

Lemma prepare_undecodable_witness :
  Forall (λ s, loadImage noDecoder s = None) (picturesOf SyncExamples.localB)
  ∧ prepareJobForCloud noDecoder SyncExamples.localB = SyncExamples.localB.
Proof.
  assert (Forall (λ s, loadImage noDecoder s = None) (picturesOf SyncExamples.localB)) as H.
  { repeat constructor. }
  split; [exact H|]. exact (prepare_undecodable noDecoder SyncExamples.localB H).
Defined.

(** X26.  The canvas [compressImage] computes for a picture is never
    resized again: a picture that has the size of the canvas gets a canvas
    of that same size. *)
Theorem canvas_idempotent (img : Image) (maxWidth : Z) :
  let '(w, ht) := canvasSize img maxWidth in
  canvasSize (mkImage w ht) maxWidth = (w, ht).
Proof.
  unfold canvasSize. destruct (maxWidth <? width img) eqn:Hw; simpl.
  - by rewrite Z.ltb_irrefl.
  - by rewrite Hw.
Qed.

(** X27.  A picture wider than [maxWidth] gets a canvas of height 0
    exactly when it is more than [2 * maxWidth] times as wide as high
    ([Math.round] of a quotient below one half). *)
Theorem canvas_height_zero (img : Image) (maxWidth : Z) :
  0 < maxWidth → maxWidth < width img → 0 ≤ height img →
  (canvasSize img maxWidth).2 = 0 ↔ 2 * height img * maxWidth < width img.
Proof.
  intros Hm Hw Hh. unfold canvasSize.
  apply Z.ltb_lt in Hw as Hw'. rewrite Hw'. simpl. unfold Math_round_div.
  split.
  - intros H0. apply Z.div_small_iff in H0; lia.
  - intros Hlt. apply Z.div_small. lia.
Qed.

Lemma canvas_height_zero_witness :
  (0 < 800 ∧ 800 < width (mkImage 2000 1) ∧ 0 ≤ height (mkImage 2000 1))
  ∧ (canvasSize (mkImage 2000 1) 800).2 = 0.
Proof.
  split; [simpl; lia|].
  apply (canvas_height_zero (mkImage 2000 1) 800); simpl; lia.
Defined.

(** * Properties of the application shell *)

Section App.
Context {W : Type} (b : Backend W) (h : Host).

Lemma updatedJobs_ids jobs jobId updates :
  u_id updates = None ∨ u_id updates = Some jobId →
  id <$> updatedJobs jobs jobId updates = id <$> jobs.
Proof.
  intros Hu. unfold updatedJobs. rewrite <- list_fmap_compose.
  apply list_fmap_ext. intros i job _. simpl.
  case_decide as Hid; [|done]. simpl. by destruct Hu as [-> | ->].
Qed.

Lemma elem_of_updatedJobs jobs jobId updates job :
  job ∈ jobs → id job = jobId → applyUpdates job updates ∈ updatedJobs jobs jobId updates.
Proof.
  intros Hin Hid. unfold updatedJobs. apply list_elem_of_fmap.
  exists job. by rewrite decide_True.
Qed.

(** A job at the head of the local list whose id no other job has is in
    the merged list as it is. *)
Lemma head_fresh_merged (newJob : Job) (jobs remoteJobs : list Job) :
  id newJob ∉ id <$> jobs → id newJob ∉ id <$> remoteJobs →
  newJob ∈ mergeFirebase (newJob :: jobs) remoteJobs.
Proof.
  intros Hj Hr. apply elem_of_mergeFirebase. unfold mergedMap. csimpl.
  rewrite get_foldl_overlayLocal_other by done.
  unfold overlayLocal. rewrite seedFirebase_fold, get_seedStep_other by done. simpl.
  apply map_get_set_eq.
Qed.

Lemma run_performSync currentJobs currentSettings config (w : W) :
  firebaseConfig currentSettings = Some config →
  let o := run b (syncWithFirebase h currentJobs currentSettings) w in
  run b (performSync h currentJobs currentSettings) w
  = mkOutcome
      (Ok match returned o with
          | Ok merged =>
              [SetSyncStatus "syncing"; SetJobs merged; SetSyncStatus "synced";
               SetTimeout 3000 (SetSyncStatus "idle")]
          | Throw err =>
              [SetSyncStatus "syncing"; ConsoleError "Sync failed" err; SetSyncStatus "error"]
          end)
      (trace o) (world o).
Proof.
  intros Hc. cbv zeta. unfold performSync. rewrite Hc.
  rewrite run_try_catch, run_bind.
  destruct (run b (syncWithFirebase h currentJobs currentSettings) w) as [[merged|e] tr w'];
    cbn [returned trace world run]; by rewrite app_nil_r.
Qed.

(** [performSync] returns, whatever the store does. *)
Lemma performSync_returns currentJobs currentSettings (w : W) :
  ∃ acts, returned (run b (performSync h currentJobs currentSettings) w) = Ok acts.
Proof.
  destruct (firebaseConfig currentSettings) as [config|] eqn:Hc.
  - rewrite (run_performSync _ _ _ _ Hc). by eexists.
  - unfold performSync. rewrite Hc. by eexists.
Qed.

End App.

(** X28.  [performSync] never throws and never touches the jobs when the
    sync fails.  Without a Firebase configuration it does nothing at all;
    with one, it makes the calls of [syncWithFirebase] and then either
    replaces the jobs by the merged list and shows "synced" (going back to
    "idle" after three seconds), or, when the sync threw, only shows
    "error".  A configuration with an empty API key gives "error" and no
    call to the store. *)
Theorem performSync_outcome {W : Type} (b : Backend W) (h : Host)
    (currentJobs : list Job) (currentSettings : AppSettings) (w : W) :
  let o := run b (syncWithFirebase h currentJobs currentSettings) w in
  let p := run b (performSync h currentJobs currentSettings) w in
  (firebaseConfig currentSettings = None → p = mkOutcome (Ok []) [] w)
  ∧ (∀ config, firebaseConfig currentSettings = Some config →
     trace p = trace o ∧ world p = world o
     ∧ (∀ merged, returned o = Ok merged →
        returned p = Ok [SetSyncStatus "syncing"; SetJobs merged; SetSyncStatus "synced";
                         SetTimeout 3000 (SetSyncStatus "idle")])
     ∧ (∀ err, returned o = Throw err →
        returned p = Ok [SetSyncStatus "syncing"; ConsoleError "Sync failed" err;
                         SetSyncStatus "error"])
     ∧ (apiKey config = "" →
        p = mkOutcome
              (Ok [SetSyncStatus "syncing";
                   ConsoleError "Sync failed" (Error "Configuración de Firebase incompleta.");
                   SetSyncStatus "error"])
              [] w)).
Proof.
  cbv zeta. split.
  - intros Hc. unfold performSync. by rewrite Hc.
  - intros config Hc. rewrite (run_performSync b h _ _ _ _ Hc). cbv zeta.
    cbn [returned trace world]. split_and!; try done.
    + by intros merged ->.
    + by intros err ->.
    + intros Hkey. rewrite syncWithFirebase_unconfigured; [done|].
      unfold firebaseConfigured. by rewrite Hc, Hkey.
Qed.

Lemma performSync_outcome_witness :
  let b := SyncExamples.store [Examples.remoteA] in
  let keyless :=
    mkSettings (Some (mkFirebaseConfig "" "taller.firebaseapp.com" "taller" None None "1:2:web:3"))
      None None in
  (firebaseConfig SyncExamples.withNothing = None
   ∧ firebaseConfig SyncExamples.withFirebase = Some SyncExamples.config)
  ∧ run b (performSync refHost [Examples.localA] SyncExamples.withNothing) []
    = mkOutcome (Ok []) [] []
  ∧ returned (run b (performSync refHost [Examples.localA] SyncExamples.withFirebase) [])
    = Ok [SetSyncStatus "syncing";
          SetJobs (mergeFirebase [Examples.localA] [Examples.remoteA]);
          SetSyncStatus "synced"; SetTimeout 3000 (SetSyncStatus "idle")]
  ∧ trace (run b (performSync refHost [Examples.localA] keyless) []) = [].
Proof.
  cbv zeta. split; [done|].
  destruct (performSync_outcome (SyncExamples.store [Examples.remoteA]) refHost
              [Examples.localA] SyncExamples.withNothing []) as [Hnone _].
  destruct (performSync_outcome (SyncExamples.store [Examples.remoteA]) refHost
              [Examples.localA] SyncExamples.withFirebase []) as [_ Hsome].
  destruct (Hsome _ eq_refl) as (_ & _ & Hok & _ & _).
  destruct (performSync_outcome (SyncExamples.store [Examples.remoteA]) refHost
              [Examples.localA]
              (mkSettings
                 (Some (mkFirebaseConfig "" "taller.firebaseapp.com" "taller" None None
                          "1:2:web:3")) None None) []) as [_ Hkeyless].
  destruct (Hkeyless _ eq_refl) as (_ & _ & _ & _ & Hempty).
  split_and!.
  - exact (Hnone eq_refl).
  - apply Hok. reflexivity.
  - by rewrite (Hempty eq_refl).
Defined.

(** X29.  A vehicle that was just registered is still there after the sync
    that follows: [handleJobCreated] puts the new job first, and when the
    sync succeeds it replaces the jobs by a merged list that holds the new
    job unchanged, provided no other job, local or remote, has its id. *)
Theorem created_job_after_sync {W : Type} (b : Backend W) (h : Host)
    (jobs remoteJobs : list Job) (settings : AppSettings) (config : FirebaseConfig)
    (newJob : Job) (w w1 w2 : W) :
  firebaseConfig settings = Some config → apiKey config ≠ "" →
  onGetDocs b config w = (Ok remoteJobs, w1) →
  onCommit b config (payload h <$> take 450 (mergeFirebase (newJob :: jobs) remoteJobs)) w1
  = (Ok (), w2) →
  id newJob ∉ id <$> jobs → id newJob ∉ id <$> remoteJobs →
  let merged := mergeFirebase (newJob :: jobs) remoteJobs in
  returned (run b (handleJobCreated h jobs settings newJob) w)
  = Ok [SetJobs (newJob :: jobs); AddToast "Vehículo registrado correctamente" "success";
        SetSyncStatus "syncing"; SetJobs merged; SetSyncStatus "synced";
        SetTimeout 3000 (SetSyncStatus "idle")]
  ∧ newJob ∈ merged
  ∧ ids merged = {[id newJob]} ∪ ids jobs ∪ ids remoteJobs.
Proof.
  intros Hc Hkey Hdocs Hcommit Hj Hr merged.
  pose proof (head_fresh_merged newJob jobs remoteJobs Hj Hr) as Hin.
  fold merged in Hin. split_and!; [|done|].
  - unfold handleJobCreated. cbv zeta.
    rewrite run_bind, (run_performSync b h _ _ _ _ Hc). cbv zeta.
    rewrite (run_syncWithFirebase b h _ _ _ _ _ _ Hc Hkey Hdocs). cbv zeta.
    fold merged. fold merged in Hcommit.
    destruct merged as [|j js] eqn:Hm; [by apply elem_of_nil in Hin|].
    rewrite Hcommit. done.
  - unfold merged. rewrite ids_mergeFirebase. unfold ids. csimpl. set_solver.
Qed.

Lemma created_job_after_sync_witness :
  let b := SyncExamples.store [Examples.remoteA] in
  (firebaseConfig SyncExamples.withFirebase = Some SyncExamples.config
   ∧ apiKey SyncExamples.config ≠ ""
   ∧ (id SyncExamples.localB ∉ id <$> [Examples.localA])
   ∧ id SyncExamples.localB ∉ id <$> [Examples.remoteA])
  ∧ SyncExamples.localB ∈ mergeFirebase [SyncExamples.localB; Examples.localA] [Examples.remoteA].
Proof.
  cbv zeta.
  assert (apiKey SyncExamples.config ≠ "") as Hkey by discriminate.
  assert (id SyncExamples.localB ∉ id <$> [Examples.localA]) as H1.
  { by intros ?%list_elem_of_singleton. }
  assert (id SyncExamples.localB ∉ id <$> [Examples.remoteA]) as H2.
  { by intros ?%list_elem_of_singleton. }
  split; [by split_and!|].
  destruct (created_job_after_sync (SyncExamples.store [Examples.remoteA]) refHost
              [Examples.localA] [Examples.remoteA] SyncExamples.withFirebase
              SyncExamples.config SyncExamples.localB [] [] _
              eq_refl Hkey eq_refl eq_refl H1 H2) as (_ & Hin & _).
  exact Hin.
Defined.

(** X30.  An edit survives the sync.  [handleUpdateJob] sets the jobs to
    the edited list before anything else and returns whatever the sync
    does; the edit changes the jobs that have the given id, each into its
    combination with the update, and no other (same length, same places).
    When the update gives no id or the id it is filed under, as both
    callers do, the ids stay as they were, and with distinct ids among the
    local jobs the list merged from the edited jobs holds a job under that
    id whose status, parts, notes and repair type are the edited ones,
    whatever the remote collection holds. *)
Theorem edit_survives_sync {W : Type} (b : Backend W) (h : Host)
    (jobs remoteJobs : list Job) (settings : AppSettings) (jobId : string)
    (updates : Updates) (w : W) :
  let updated := updatedJobs jobs jobId updates in
  (∃ acts, returned (run b (handleUpdateJob h jobs settings jobId updates) w)
           = Ok (SetJobs updated :: acts))
  ∧ length updated = length jobs
  ∧ (∀ i other, jobs !! i = Some other → id other ≠ jobId → updated !! i = Some other)
  ∧ (∀ i job, jobs !! i = Some job → id job = jobId →
              updated !! i = Some (applyUpdates job updates))
  ∧ (u_id updates = None ∨ u_id updates = Some jobId →
     id <$> updated = id <$> jobs
     ∧ ∀ job, NoDup (id <$> jobs) → job ∈ jobs → id job = jobId →
         ∃ m, m ∈ mergeFirebase updated remoteJobs
           ∧ id m = jobId
           ∧ status m = default (status job) (u_status updates)
           ∧ identifiedParts m = default (identifiedParts job) (u_identifiedParts updates)
           ∧ manualNotes m = default (manualNotes job) (u_manualNotes updates)
           ∧ repairType m = default (repairType job) (u_repairType updates)).
Proof.
  intros updated. split_and!.
  - unfold handleUpdateJob. cbv zeta. fold updated. rewrite run_bind.
    destruct (performSync_returns b h updated settings w) as [acts ->].
    cbn [run returned]. by exists acts.
  - unfold updated, updatedJobs. by rewrite length_fmap.
  - intros i other Hi Hne. unfold updated, updatedJobs.
    rewrite list_lookup_fmap, Hi. simpl. by rewrite decide_False.
  - intros i job Hi Hid. unfold updated, updatedJobs.
    rewrite list_lookup_fmap, Hi. simpl. by rewrite decide_True.
  - intros Hu.
    assert (id <$> updated = id <$> jobs) as Hids by (by apply updatedJobs_ids).
    split; [exact Hids|]. intros job Hnd Hin Hid.
    set (edited := applyUpdates job updates).
    assert (edited ∈ updated) as Hed by (by apply elem_of_updatedJobs).
    assert (id edited = jobId) as Hide.
    { unfold edited. simpl. by destruct Hu as [-> | ->]. }
    exists (overlaid (map_get (id edited) (seedFirebase remoteJobs)) edited).
    assert (∀ prev, id (overlaid prev edited) = id edited) as Hido by (by intros [r|]).
    split_and!.
    + apply elem_of_mergeFirebase. rewrite Hido. unfold mergedMap.
      apply get_foldl_overlayLocal; [by rewrite Hids|done].
    + by rewrite Hido.
    + by destruct (map_get _ _).
    + by destruct (map_get _ _).
    + by destruct (map_get _ _).
    + by destruct (map_get _ _).
Qed.

Lemma edit_survives_sync_witness :
  let jobs := [Examples.localA; SyncExamples.localB] in
  let form := asUpdates AppExamples.formData in
  (u_id AppExamples.workOrder = None ∧ u_id form = Some "A"
   ∧ NoDup (id <$> jobs) ∧ Examples.localA ∈ jobs ∧ id Examples.localA = "A")
  ∧ (∃ m, m ∈ mergeFirebase (updatedJobs jobs "A" AppExamples.workOrder) [Examples.remoteA]
          ∧ id m = "A" ∧ status m = "En Proceso" ∧ manualNotes m = "golpe frontal")
  ∧ (∃ m, m ∈ mergeFirebase (updatedJobs jobs "A" form) [Examples.remoteA]
          ∧ id m = "A" ∧ status m = "Terminado" ∧ manualNotes m = "entregado")
  ∧ updatedJobs jobs "A" form !! 1%nat = Some SyncExamples.localB.
Proof.
  cbv zeta.
  assert (NoDup (id <$> [Examples.localA; SyncExamples.localB])) as Hnd.
  { apply NoDup_cons. split; [by intros ?%list_elem_of_singleton|apply NoDup_singleton]. }
  assert (Examples.localA ∈ [Examples.localA; SyncExamples.localB]) as Hin by (by left).
  split; [by split_and!|].
  destruct (edit_survives_sync (SyncExamples.store [Examples.remoteA]) refHost
              [Examples.localA; SyncExamples.localB] [Examples.remoteA]
              SyncExamples.withFirebase "A" AppExamples.workOrder [])
    as (_ & _ & _ & _ & Horder).
  destruct (Horder (or_introl eq_refl)) as [_ Horder'].
  destruct (Horder' Examples.localA Hnd Hin eq_refl) as (m & Hm & Hid & Hst & _ & Hnotes & _).
  destruct (edit_survives_sync (SyncExamples.store [Examples.remoteA]) refHost
              [Examples.localA; SyncExamples.localB] [Examples.remoteA]
              SyncExamples.withFirebase "A" (asUpdates AppExamples.formData) [])
    as (_ & _ & Hother & _ & Hform).
  destruct (Hform (or_intror eq_refl)) as [_ Hform'].
  destruct (Hform' Examples.localA Hnd Hin eq_refl)
    as (m' & Hm' & Hid' & Hst' & _ & Hnotes' & _).
  split_and!.
  - exists m. by split_and!.
  - exists m'. by split_and!.
  - apply (Hother 1%nat SyncExamples.localB eq_refl). discriminate.
Defined.
